(** * Colored Petri net engine for tool orchestration

    A shallow embedding of [colored-petri-net.ts] (class [ColoredPetriNet])
    and of [contextual-hints.ts] (diagnostic path discovery), followed by
    the properties of the engine that the design document states.

    Conventions of the embedding.
    - JavaScript objects that the engine mutates and shares with its
      callers (the [Place] objects, whose [tokens] arrays are pushed to
      and spliced) live in an explicit store, [World.heap], and are
      referred to by location.  Everything else is passed by value.
    - A method is a function [World -> Completion A * World]: it may
      return or throw, and the store it leaves behind is part of the
      result in both cases.
    - [async]/[await] is read sequentially: the caller awaits the promise
      of [fireTransition] and nothing else runs in between.
    - Patterns, guards, expressions and handlers are total functions of
      their argument; a handler either resolves or rejects.
    - Numbers that the engine computes with ([confidence]) are IEEE-754
      binary64 values, as in JavaScript. *)

From Stdlib Require Import ZArith List String Ascii Lia Bool.
From Stdlib Require Import Decimal DecimalString DecimalNat Sorted.
From Stdlib Require Import Floats.SpecFloat.
From stdpp Require Import list.

Open Scope string_scope.
Open Scope list_scope.

(** ** Insertion-ordered string-keyed tables

    Both a JavaScript object used as a record of variables (a [Binding])
    and a [Map<string, V>] enumerate their keys in insertion order;
    writing an existing key keeps its position, writing a new key appends
    it.  (Keys that look like array indices would be enumerated first by
    an object; the engine's own keys all end in [_token].) *)
Module JsMap.
Section Table.
Context {V : Type}.

Fixpoint get (k : string) (m : list (string * V)) : option V :=
  match m with
  | [] => None
  | (k', v) :: m' => if String.eqb k k' then Some v else get k m'
  end.

Fixpoint set (k : string) (v : V) (m : list (string * V)) : list (string * V) :=
  match m with
  | [] => [(k, v)]
  | (k', v') :: m' =>
      if String.eqb k k' then (k, v) :: m' else (k', v') :: set k v m'
  end.

Fixpoint del (k : string) (m : list (string * V)) : list (string * V) :=
  match m with
  | [] => []
  | (k', v') :: m' =>
      if String.eqb k k' then m' else (k', v') :: del k m'
  end.

Definition keys (m : list (string * V)) : list string := map fst m.
Definition values (m : list (string * V)) : list V := map snd m.
End Table.
End JsMap.

(** ** Values carried by tokens

    A token color is an arbitrary JavaScript value.  The engine itself
    only ever builds objects (a binding is an object, and the result of a
    firing without handler is the binding itself). *)
#[warnings="-register-all"]
Inductive Value : Type :=
| VUndefined
| VNull
| VBool (b : bool)
| VNum (n : Z)
| VStr (s : string)
| VObject (fields : list (string * Value)).

(** [interface Binding { [variable: string]: any }] *)
Definition Binding : Type := list (string * Value).

(** ** IEEE-754 binary64 arithmetic (round to nearest, ties to even) *)
Module Float64.
Definition prec : Z := 53.
Definition emax : Z := 1024.
Definition float : Type := spec_float.

Definition of_Z (z : Z) : float := binary_normalize prec emax z 0 false.
(** [length] of an array, as a number *)
Definition of_nat (n : nat) : float := of_Z (Z.of_nat n).

Definition add : float -> float -> float := SFadd prec emax.
Definition sub : float -> float -> float := SFsub prec emax.
Definition mul : float -> float -> float := SFmul prec emax.
Definition div : float -> float -> float := SFdiv prec emax.

(** The literals of the source: the doubles nearest to the decimals. *)
Definition zero : float := S754_zero false.
Definition lit_0_1 : float := S754_finite false 7205759403792794 (-56).
Definition lit_0_2 : float := S754_finite false 7205759403792794 (-55).
Definition lit_0_5 : float := S754_finite false 4503599627370496 (-53).
Definition lit_0_8 : float := S754_finite false 7205759403792794 (-53).
Definition lit_1_0 : float := S754_finite false 4503599627370496 (-52).

(** [x <= y] and [x > 0] as JavaScript evaluates them (false on NaN). *)
Definition leb (x y : float) : bool :=
  match SFcompare x y with
  | Some Lt | Some Eq => true
  | _ => false
  end.
Definition gtb (x y : float) : bool :=
  match SFcompare x y with
  | Some Gt => true
  | _ => false
  end.

(** [Math.min(x, y)]: NaN if either is NaN, otherwise the smaller, with
    [-0] below [+0]. *)
Definition Math_min (x y : float) : float :=
  match SFcompare x y with
  | None => S754_nan
  | Some Lt => x
  | Some Gt => y
  | Some Eq =>
      match x, y with
      | S754_zero sx, S754_zero sy => S754_zero (sx || sy)
      | _, _ => x
      end
  end.
End Float64.

(** ** The data model ([interface Token], [Place], [Arc], [Transition],
       [SemanticHint]) *)

Module Token.
Record t : Type := mk {
  id : string;
  color : Value;        (* the actual data/context *)
  place : string        (* current location *)
}.
End Token.

Module Place.
Record t : Type := mk {
  id : string;
  name : string;
  description : option string;
  tokens : list Token.t
}.
Definition with_tokens (p : t) (ts : list Token.t) : t :=
  mk (id p) (name p) (description p) ts.
End Place.

Module Arc.
Record t : Type := mk {
  id : string;
  source : string;                          (* place or transition id *)
  target : string;                          (* place or transition id *)
  weight : option Z;                        (* tokens required/produced *)
  pattern : option (Token.t -> bool);       (* for input arcs *)
  expression : option (Value -> Value)      (* for output arcs *)
}.
End Arc.

Module SemanticHint.
Record t : Type := mk {
  transitionId : string;
  transitionName : string;
  description : option string;
  confidence : Float64.float;
  requiredTokens : list string;
  example : string
}.
End SemanticHint.

(** ** What a call can throw *)

(** An [Error] object of the base class, the engine's
    [TransitionNotEnabledError], or any other thrown value. *)
Inductive Exn : Type :=
| Error (message : string)
| TransitionNotEnabledError
    (message : string) (transitionName : string)
    (availableTransitions : list SemanticHint.t)
| Rejection (reason : Value).

(** What awaiting [handler(binding)] yields: the value the promise
    resolves to, or whatever the handler threw or rejected with, which
    [await] throws again as it is. *)
Inductive Settled : Type :=
| Resolved (result : Value)
| Rejected (thrown : Exn).

Module Transition.
Record t : Type := mk {
  id : string;
  name : string;                            (* verb:noun or verb:noun:verb *)
  description : option string;
  guard : option (Binding -> bool);
  handler : option (Binding -> Settled)
}.
End Transition.

Inductive Completion (A : Type) : Type :=
| Return (a : A)
| Throw (e : Exn).
Arguments Return {A} a.
Arguments Throw {A} e.

(** ** The engine and the store it lives in *)

(** Locations of place objects in the store. *)
Abbreviation loc := nat (only parsing).

Module Net.
(** The private fields of [class ColoredPetriNet].  [tokenCounter] is a
    number that only ever holds a count of [addToken] calls; it is taken
    as a natural number (a double counts exactly up to 2^53). *)
Record t : Type := mk {
  places : list (string * loc);             (* Map<string, Place> *)
  transitions : list (string * Transition.t); (* Map<string, Transition> *)
  arcs : list Arc.t;
  tokenCounter : nat
}.
End Net.

Module World.
Record t : Type := mk {
  heap : list Place.t;       (* the Place objects, by location *)
  net : Net.t;
  minted : list string       (* history: ids returned by addToken, oldest first;
                                read by no operation *)
}.
End World.

(** [new ColoredPetriNet()] in an empty store. *)
Definition newNet : World.t :=
  World.mk [] (Net.mk [] [] [] 0) [].

(** ** Methods as state-and-exception computations *)
Definition M (A : Type) : Type := World.t -> Completion A * World.t.

Definition ret {A} (a : A) : M A := fun w => (Return a, w).
Definition throw {A} (e : Exn) : M A := fun w => (Throw e, w).
Definition bind {A B} (m : M A) (k : A -> M B) : M B :=
  fun w =>
    match m w with
    | (Return a, w') => k a w'
    | (Throw e, w') => (Throw e, w')
    end.

Declare Scope js_scope.
Delimit Scope js_scope with js.
Notation "x <- c1 ;; c2" := (bind c1 (fun x => c2))
  (at level 100, c1 at next level, right associativity) : js_scope.
Notation "c1 ;; c2" := (bind c1 (fun _ => c2))
  (at level 100, right associativity) : js_scope.

(** [for (let i = 0; i < n; i++) body] *)
Fixpoint repeatM (n : nat) (body : M unit) : M unit :=
  match n with
  | O => ret tt
  | S n' => (body ;; repeatM n' body)%js
  end.

(** [for (const x of xs) body(x)] *)
Fixpoint forM {A} (xs : list A) (body : A -> M unit) : M unit :=
  match xs with
  | [] => ret tt
  | x :: xs' => (body x ;; forM xs' body)%js
  end.

(** ** Construction and seeding *)

Definition setHeap (h : list Place.t) (w : World.t) : World.t :=
  World.mk h (World.net w) (World.minted w).
Definition setNet (n : Net.t) (w : World.t) : World.t :=
  World.mk (World.heap w) n (World.minted w).

(** [this.places.get(placeId)]: the location of the place object and the
    object found there. *)
Definition getPlace (w : World.t) (placeId : string) : option (loc * Place.t) :=
  match JsMap.get placeId (Net.places (World.net w)) with
  | Some l =>
      match World.heap w !! l with
      | Some place => Some (l, place)
      | None => None
      end
  | None => None
  end.

(** [addPlace(place)]: [this.places.set(place.id, place)].  The object
    passed by the caller is the one stored; it is given the next free
    location, [length (World.heap w)], which the caller may keep. *)
Definition addPlace (place : Place.t) : M unit :=
  fun w =>
    let l := length (World.heap w) in
    let n := World.net w in
    (Return tt,
     World.mk (World.heap w ++ [place])
       (Net.mk (JsMap.set (Place.id place) l (Net.places n))
          (Net.transitions n) (Net.arcs n) (Net.tokenCounter n))
       (World.minted w)).

(** [addTransition(transition)]: [this.transitions.set(transition.id, transition)] *)
Definition addTransition (transition : Transition.t) : M unit :=
  fun w =>
    let n := World.net w in
    (Return tt,
     setNet (Net.mk (Net.places n)
               (JsMap.set (Transition.id transition) transition (Net.transitions n))
               (Net.arcs n) (Net.tokenCounter n)) w).

(** [addArc(arc)]: [this.arcs.push(arc)] *)
Definition addArc (arc : Arc.t) : M unit :=
  fun w =>
    let n := World.net w in
    (Return tt,
     setNet (Net.mk (Net.places n) (Net.transitions n)
               (Net.arcs n ++ [arc]) (Net.tokenCounter n)) w).

(** Decimal rendering of a counter inside a template string. *)
Definition decimal (n : nat) : string := NilEmpty.string_of_uint (Nat.to_uint n).

Definition tokenIdOf (n : nat) : string := "token-" ++ decimal n.

(** [addToken(placeId, color)] *)
Definition addToken (placeId : string) (color : Value) : M string :=
  fun w =>
    match getPlace w placeId with
    | None => (Throw (Error ("Place " ++ placeId ++ " not found")), w)
    | Some (l, place) =>
        let n := World.net w in
        let counter := S (Net.tokenCounter n) in        (* ++this.tokenCounter *)
        let tokenId := tokenIdOf counter in
        let token := Token.mk tokenId color placeId in
        (Return tokenId,
         World.mk
           (<[l := Place.with_tokens place (Place.tokens place ++ [token])]> (World.heap w))
           (Net.mk (Net.places n) (Net.transitions n) (Net.arcs n) counter)
           (World.minted w ++ [tokenId]))
    end.

(** ** Enablement and binding search *)

Definition getInputArcs (w : World.t) (transitionId : string) : list Arc.t :=
  filter (fun arc => String.eqb (Arc.target arc) transitionId = true)
         (Net.arcs (World.net w)).

Definition getOutputArcs (w : World.t) (transitionId : string) : list Arc.t :=
  filter (fun arc => String.eqb (Arc.source arc) transitionId = true)
         (Net.arcs (World.net w)).

(** [!arc.pattern || arc.pattern(token)] *)
Definition matches (arc : Arc.t) (token : Token.t) : bool :=
  match Arc.pattern arc with
  | None => true
  | Some pattern => pattern token
  end.

(** [`${arc.source}_token`] *)
Definition variableName (arc : Arc.t) : string := Arc.source arc ++ "_token".

(** One iteration of [for (const token of place.tokens)] inside
    [checkBinding]; [next] is [checkBinding(arcIndex + 1, _)].  The
    state is the shared [currentBinding] object and the [bindings]
    array collected so far. *)
Definition tryToken
    (next : Binding -> list Binding -> Binding * list Binding)
    (arc : Arc.t) (st : Binding * list Binding) (token : Token.t)
  : Binding * list Binding :=
  let '(currentBinding, bindings) := st in
  if matches arc token then
    let '(currentBinding', bindings') :=
      next (JsMap.set (variableName arc) (Token.color token) currentBinding) bindings in
    (JsMap.del (variableName arc) currentBinding', bindings')
  else (currentBinding, bindings).

(** The local closure [checkBinding] of [findValidBindings]; the list
    argument is [inputArcs] from [arcIndex] on. *)
Fixpoint checkBinding (w : World.t) (inputArcs : list Arc.t)
    (currentBinding : Binding) (bindings : list Binding)
  : Binding * list Binding :=
  match inputArcs with
  | [] => (currentBinding, bindings ++ [currentBinding])   (* push({ ...currentBinding }) *)
  | arc :: rest =>
      match getPlace w (Arc.source arc) with
      | None => (currentBinding, bindings)
      | Some (_, place) =>
          fold_left (tryToken (checkBinding w rest) arc)
                    (Place.tokens place) (currentBinding, bindings)
      end
  end.

Definition findValidBindings (w : World.t) (inputArcs : list Arc.t) : list Binding :=
  match inputArcs with
  | [] => [[]]
  | _ => snd (checkBinding w inputArcs [] [])
  end.

(** ** Confidence and hints *)

(** [s.split(':')] *)
Fixpoint split_colon (s : string) : list string :=
  match s with
  | EmptyString => [""]
  | String c rest =>
      if Ascii.eqb c ":"%char then "" :: split_colon rest
      else
        match split_colon rest with
        | part :: parts => String c part :: parts
        | [] => [String c ""]
        end
  end.

Definition calculateConfidence (transition : Transition.t) (binding : Binding)
  : Float64.float :=
  let confidence := Float64.lit_0_5 in
  let bindingSize := length (JsMap.keys binding) in
  let confidence :=
    if Nat.ltb 0 bindingSize
    then Float64.add confidence (Float64.mul Float64.lit_0_1 (Float64.of_nat bindingSize))
    else confidence in
  let parts := split_colon (Transition.name transition) in
  let confidence :=
    if Nat.eqb (length parts) 3
    then Float64.add confidence Float64.lit_0_2
    else confidence in
  Float64.Math_min confidence Float64.lit_1_0.

Definition dquote : string := String (ascii_of_nat 34) EmptyString.

Definition generateExample (transition : Transition.t) (binding : Binding) : string :=
  match split_colon (Transition.name transition) with
  | [p0; p1] => p0 ++ "(" ++ dquote ++ p1 ++ dquote ++ ")"
  | [p0; p1; p2] =>
      p0 ++ "(" ++ dquote ++ p1 ++ dquote ++ ", " ++ dquote ++ p2 ++ dquote ++ ")"
  | _ => Transition.name transition
  end.

(** [transition.guard && !transition.guard(binding)] is false *)
Definition guardAccepts (transition : Transition.t) (binding : Binding) : bool :=
  match Transition.guard transition with
  | None => true
  | Some guard => guard binding
  end.

Definition hintFor (transition : Transition.t) (binding : Binding) : SemanticHint.t :=
  SemanticHint.mk
    (Transition.id transition)
    (Transition.name transition)
    (Transition.description transition)
    (calculateConfidence transition binding)
    (JsMap.keys binding)
    (generateExample transition binding).

(** [Array.prototype.sort] with a comparator is stable: an element is
    placed before the first one that the comparator orders after it. *)
Fixpoint insertSorted {A} (cmp : A -> A -> Float64.float) (x : A) (sorted : list A)
  : list A :=
  match sorted with
  | [] => [x]
  | y :: rest =>
      if Float64.gtb (cmp y x) Float64.zero then x :: y :: rest
      else y :: insertSorted cmp x rest
  end.

Definition Array_sort {A} (cmp : A -> A -> Float64.float) (xs : list A) : list A :=
  fold_left (fun sorted x => insertSorted cmp x sorted) xs [].

(** [(a, b) => b.confidence - a.confidence] *)
Definition byConfidence (a b : SemanticHint.t) : Float64.float :=
  Float64.sub (SemanticHint.confidence b) (SemanticHint.confidence a).

Definition hintsOf (w : World.t) (transition : Transition.t) : list SemanticHint.t :=
  let inputArcs := getInputArcs w (Transition.id transition) in
  let bindings := findValidBindings w inputArcs in
  map (hintFor transition)
      (filter (fun binding => guardAccepts transition binding = true) bindings).

Definition getEnabledTransitions (w : World.t) : list SemanticHint.t :=
  let hints := flat_map (hintsOf w) (JsMap.values (Net.transitions (World.net w))) in
  Array_sort byConfidence hints.

(** ** Firing *)

(** [arc.weight || 1] used as the bound of [for (let i = 0; i < n; i++)]:
    an absent or zero weight counts as 1, a negative one runs no
    iteration. *)
Definition tokenCount (arc : Arc.t) : nat :=
  match Arc.weight arc with
  | None => 1
  | Some 0%Z => 1
  | Some z => Z.to_nat z
  end.

(** [xs.findIndex(f)], with [None] for [-1] *)
Fixpoint findIndex {A} (f : A -> bool) (xs : list A) : option nat :=
  match xs with
  | [] => None
  | x :: xs' => if f x then Some 0 else option_map S (findIndex f xs')
  end.

(** One iteration of the removal loop on the place object at [l]:
    [findIndex] of the first matching token, then [splice(tokenIndex, 1)]. *)
Definition removeMatching (l : loc) (arc : Arc.t) : M unit :=
  fun w =>
    match World.heap w !! l with
    | None => (Return tt, w)
    | Some place =>
        match findIndex (matches arc) (Place.tokens place) with
        | None => (Return tt, w)
        | Some tokenIndex =>
            (Return tt,
             setHeap (<[l := Place.with_tokens place
                               (delete tokenIndex (Place.tokens place))]>
                        (World.heap w)) w)
        end
    end.

(** The body of [for (const arc of inputArcs)] *)
Definition consumeArc (arc : Arc.t) : M unit :=
  fun w =>
    match getPlace w (Arc.source arc) with
    | None => (Return tt, w)
    | Some (l, _) => repeatM (tokenCount arc) (removeMatching l arc) w
    end.

(** [await transition.handler(binding)], or the binding itself *)
Definition runHandler (transition : Transition.t) (binding : Binding) : M Value :=
  match Transition.handler transition with
  | None => ret (VObject binding)
  | Some handler =>
      match handler binding with
      | Resolved result => ret result
      | Rejected thrown => throw thrown
      end
  end.

(** [arc.expression ? arc.expression(result) : result] *)
Definition tokenColor (result : Value) (arc : Arc.t) : Value :=
  match Arc.expression arc with
  | Some expression => expression result
  | None => result
  end.

(** The body of [for (const arc of outputArcs)] *)
Definition produceArc (result : Value) (arc : Arc.t) : M unit :=
  repeatM (tokenCount arc)
    (_ <- addToken (Arc.target arc) (tokenColor result arc) ;; ret tt)%js.

(** [selectedBinding ? [selectedBinding] : this.findValidBindings(inputArcs)] *)
Definition candidateBindings (w : World.t) (inputArcs : list Arc.t)
    (selectedBinding : option Binding) : list Binding :=
  match selectedBinding with
  | Some b => [b]
  | None => findValidBindings w inputArcs
  end.

(** The three statements after the guard check: removal of input tokens,
    the handler, production of output tokens. *)
Definition commit (transitionId : string) (transition : Transition.t)
    (inputArcs : list Arc.t) (binding : Binding) : M Value :=
  (_ <- forM inputArcs consumeArc ;;
   result <- runHandler transition binding ;;
   _ <- (fun w => forM (getOutputArcs w transitionId) (produceArc result) w) ;;
   ret result)%js.

(** [fireTransition(transitionId, selectedBinding?)] *)
Definition fireTransition (transitionId : string) (selectedBinding : option Binding)
  : M Value :=
  fun w =>
    match JsMap.get transitionId (Net.transitions (World.net w)) with
    | None => (Throw (Error ("Transition " ++ transitionId ++ " not found")), w)
    | Some transition =>
        let inputArcs := getInputArcs w transitionId in
        let bindings := candidateBindings w inputArcs selectedBinding in
        match bindings with
        | [] =>
            (Throw (TransitionNotEnabledError
                      ("Transition " ++ transitionId ++ " is not enabled")
                      (Transition.name transition)
                      (getEnabledTransitions w)), w)
        | binding :: _ =>                    (* use first valid binding *)
            if negb (guardAccepts transition binding) then
              (Throw (TransitionNotEnabledError
                        ("Guard condition failed for transition " ++ transitionId)
                        (Transition.name transition)
                        (getEnabledTransitions w)), w)
            else commit transitionId transition inputArcs binding w
        end
    end.

(** ** Introspection *)

Module Snapshot.
(** [{ places: Place[], transitions: Transition[], arcs: Arc[] }]: the
    [places] array is new, its elements are the place objects
    themselves.  (The transition objects and the [arcs] array are the
    engine's own as well; sharing is tracked for place objects only.) *)
Record t : Type := mk {
  places : list loc;
  transitions : list Transition.t;
  arcs : list Arc.t
}.
End Snapshot.

Definition snapshotOf (w : World.t) : Snapshot.t :=
  let n := World.net w in
  Snapshot.mk (JsMap.values (Net.places n))      (* Array.from(this.places.values()) *)
              (JsMap.values (Net.transitions n)) (* Array.from(this.transitions.values()) *)
              (Net.arcs n).

(** [getState()] *)
Definition getState : M Snapshot.t :=
  fun w => (Return (snapshotOf w), w).

(** What a holder of a place object can do to it. *)
Module Caller.
(** [place.tokens.push(token)] *)
Definition pushToken (l : loc) (token : Token.t) : M unit :=
  fun w =>
    match World.heap w !! l with
    | None => (Return tt, w)
    | Some place =>
        (Return tt,
         setHeap (<[l := Place.with_tokens place (Place.tokens place ++ [token])]>
                    (World.heap w)) w)
    end.

(** [place.tokens.splice(i, 1)] *)
Definition spliceToken (l : loc) (i : nat) : M unit :=
  fun w =>
    match World.heap w !! l with
    | None => (Return tt, w)
    | Some place =>
        (Return tt,
         setHeap (<[l := Place.with_tokens place (delete i (Place.tokens place))]>
                    (World.heap w)) w)
    end.
End Caller.

(** The token sequence of the engine's place [placeId]. *)
Definition tokensAt (w : World.t) (placeId : string) : option (list Token.t) :=
  match getPlace w placeId with
  | Some (_, place) => Some (Place.tokens place)
  | None => None
  end.

(** ** Contextual hints ([contextual-hints.ts])

    These functions work on the snapshot returned by [getState] and read
    the place objects it refers to. *)

(** What [humanReadablePlace] returns.  Declared a string, it is the
    value found in an object literal indexed by a place id, and such an
    object also answers for the keys of [Object.prototype]: for those
    the value is the built-in member held under that key. *)
Inductive Requirement : Type :=
| Text (text : string)
| Inherited (key : string).

Module ContextualHint.
Record t : Type := mk {
  missingRequirements : list Requirement;
  suggestedPath : list string;
  readable : string
}.
End ContextualHint.

(** [state.places.find(p => p.id === placeId)] *)
Definition findPlace (w : World.t) (state : Snapshot.t) (placeId : string)
  : option Place.t :=
  List.find (fun p => String.eqb (Place.id p) placeId)
            (omap (fun l => World.heap w !! l) (Snapshot.places state)).

(** [state.transitions.find(t => t.id === transitionId)] *)
Definition findTransition (state : Snapshot.t) (transitionId : string)
  : option Transition.t :=
  List.find (fun t => String.eqb (Transition.id t) transitionId)
            (Snapshot.transitions state).

Definition arcsInto (state : Snapshot.t) (nodeId : string) : list Arc.t :=
  filter (fun arc => String.eqb (Arc.target arc) nodeId = true) (Snapshot.arcs state).

Definition getInputPlaces (state : Snapshot.t) (transitionId : string) : list string :=
  map Arc.source (arcsInto state transitionId).

Definition checkTransitionEnabled (w : World.t) (state : Snapshot.t)
    (transitionId : string) : bool :=
  forallb
    (fun arc =>
       match findPlace w state (Arc.source arc) with
       | None => false
       | Some place => negb (Nat.eqb (length (Place.tokens place)) 0)
       end)
    (arcsInto state transitionId).

(** [[...new Set(path)]]: first occurrences, in order *)
Fixpoint dedupe (seen : list string) (path : list string) : list string :=
  match path with
  | [] => []
  | x :: rest =>
      if existsb (String.eqb x) seen then dedupe seen rest
      else x :: dedupe (x :: seen) rest
  end.

(** The body of [for (const arc of producingArcs)] in
    [findPathToFulfill]; [recur] is the recursive call and [acc] the
    [path] built so far ([None] once a recursive call has failed to
    return). *)
Definition visitArc (recur : list string -> option (list string))
    (w : World.t) (state : Snapshot.t)
    (acc : option (list string)) (arc : Arc.t) : option (list string) :=
  match acc with
  | None => None
  | Some path =>
      match findTransition state (Arc.source arc) with
      | None => Some path
      | Some transition =>
          if checkTransitionEnabled w state (Transition.id transition)
          then Some (path ++ [Transition.name transition])
          else
            match recur (getInputPlaces state (Transition.id transition)) with
            | None => None
            | Some priorPath =>
                Some (path ++ priorPath ++ [Transition.name transition])
            end
      end
  end.

(** The body of [for (const placeId of targetPlaces)] *)
Definition visitPlace (recur : list string -> option (list string))
    (w : World.t) (state : Snapshot.t)
    (acc : option (list string)) (placeId : string) : option (list string) :=
  fold_left (visitArc recur w state) (arcsInto state placeId) acc.

(** [findPathToFulfill(state, targetPlaces)].  The function calls itself
    with no bound of its own; [fuel] is the depth of nested calls that the
    evaluation is allowed, and [None] says that this depth was exceeded. *)
Fixpoint findPathToFulfill (fuel : nat) (w : World.t) (state : Snapshot.t)
    (targetPlaces : list string) : option (list string) :=
  match fuel with
  | O => None
  | S fuel' =>
      option_map (dedupe [])
        (fold_left (visitPlace (findPathToFulfill fuel' w state) w state)
                   targetPlaces (Some []))
  end.

Definition placeDescriptions : list (string * string) :=
  [("file_found", "a found file"); ("file_read", "file content");
   ("search_results", "search results"); ("file_written", "a written file");
   ("start", "initial state")].

(** [a || b] on strings: the empty string is falsy *)
Definition orElse (a : option string) (b : string) : string :=
  match a with
  | Some (String c s) => String c s
  | _ => b
  end.

(** The keys that every object literal answers for through
    [Object.prototype]. *)
Definition objectPrototypeKeys : list string :=
  ["constructor"; "__defineGetter__"; "__defineSetter__"; "hasOwnProperty";
   "__lookupGetter__"; "__lookupSetter__"; "isPrototypeOf"; "propertyIsEnumerable";
   "toString"; "valueOf"; "__proto__"; "toLocaleString"].

(** [placeDescriptions[place.id] || place.name || place.id]: an own
    description (none of them is empty), else the inherited member when
    the id is a key of [Object.prototype] (a function or an object,
    hence truthy), else the name or the id. *)
Definition humanReadablePlace (place : option Place.t) : Requirement :=
  match place with
  | None => Text "unknown requirement"
  | Some place =>
      match JsMap.get (Place.id place) placeDescriptions with
      | Some (String c s) => Text (String c s)
      | _ =>
          if existsb (String.eqb (Place.id place)) objectPrototypeKeys
          then Inherited (Place.id place)
          else Text (orElse (Some (Place.name place)) (Place.id place))
      end
  end.

(** The string that [join] makes of an element: a built-in function
    reads [function f() { [native code] }] under Node, with the
    function's own name ([Object] for [constructor]), and the prototype
    object reads [[object Object]]. *)
Definition requirementText (requirement : Requirement) : string :=
  match requirement with
  | Text text => text
  | Inherited key =>
      if String.eqb key "__proto__" then "[object Object]"
      else "function " ++ (if String.eqb key "constructor" then "Object" else key)
           ++ "() { [native code] }"
  end.

Definition newline : string := String (ascii_of_nat 10) EmptyString.

Definition buildReadableHint (transition : Transition.t)
    (missingRequirements : list Requirement) (suggestedPath : list string) : string :=
  match missingRequirements with
  | [] => Transition.name transition ++ " is ready to execute"
  | _ =>
      Transition.name transition ++ " needs: "
        ++ String.concat ", " (map requirementText missingRequirements)
        ++ newline ++ "Try instead: " ++ String.concat " → " suggestedPath
  end.

(** [generateContextualHint(net, desiredTransitionId)] *)
Definition generateContextualHint (fuel : nat) (w : World.t)
    (desiredTransitionId : string) : option ContextualHint.t :=
  let state := snapshotOf w in           (* net.getState() *)
  match findTransition state desiredTransitionId with
  | None => Some (ContextualHint.mk [] [] "Unknown transition")
  | Some transition =>
      let inputArcs := arcsInto state desiredTransitionId in
      let missingPlaces :=
        flat_map
          (fun arc =>
             match findPlace w state (Arc.source arc) with
             | Some place =>
                 if Nat.eqb (length (Place.tokens place)) 0 then [Place.id place] else []
             | None => []
             end) inputArcs in
      let missingRequirements :=
        map (fun placeId => humanReadablePlace (findPlace w state placeId)) missingPlaces in
      match findPathToFulfill fuel w state missingPlaces with
      | None => None
      | Some suggestedPath =>
          Some (ContextualHint.mk missingRequirements suggestedPath
                  (buildReadableHint transition missingRequirements suggestedPath))
      end
  end.

(** ** Histories of calls on one net *)

Inductive Call : Type :=
| CallAddPlace (place : Place.t)
| CallAddTransition (transition : Transition.t)
| CallAddArc (arc : Arc.t)
| CallAddToken (placeId : string) (color : Value)
| CallFireTransition (transitionId : string) (selectedBinding : option Binding)
| CallGetState
| CallGetEnabledTransitions
| CallerPush (l : loc) (token : Token.t)
| CallerSplice (l : loc) (i : nat).

(** The store after a call, whether it returned or threw. *)
Definition after (c : Call) (w : World.t) : World.t :=
  match c with
  | CallAddPlace place => snd (addPlace place w)
  | CallAddTransition transition => snd (addTransition transition w)
  | CallAddArc arc => snd (addArc arc w)
  | CallAddToken placeId color => snd (addToken placeId color w)
  | CallFireTransition transitionId selectedBinding =>
      snd (fireTransition transitionId selectedBinding w)
  | CallGetState => snd (getState w)
  | CallGetEnabledTransitions => w
  | CallerPush l token => snd (Caller.pushToken l token w)
  | CallerSplice l i => snd (Caller.spliceToken l i w)
  end.

Definition run (calls : list Call) (w : World.t) : World.t :=
  fold_left (fun w c => after c w) calls w.

(** ** The binding search with its choices made visible

    A binding records colors, not tokens.  To speak about which token
    each input arc was bound to, the search is replayed here with one
    more piece of bookkeeping and no other change: [chosen] lists, for
    the arcs already passed in the current branch, the token taken (the
    place object read, the position in its [tokens] array and the token
    found there), and every emitted binding is paired with that list. *)

Module Choice.
Record t : Type := mk {
  object : loc;          (* the place object read *)
  index : nat;           (* position in its tokens array *)
  token : Token.t
}.
End Choice.

Definition tryTokenTraced
    (next : list Choice.t -> Binding -> list (Binding * list Choice.t)
            -> Binding * list (Binding * list Choice.t))
    (arc : Arc.t) (l : loc) (chosen : list Choice.t)
    (st : nat * Binding * list (Binding * list Choice.t)) (token : Token.t)
  : nat * Binding * list (Binding * list Choice.t) :=
  let '(i, currentBinding, bindings) := st in
  if matches arc token then
    let '(currentBinding', bindings') :=
      next (chosen ++ [Choice.mk l i token])
           (JsMap.set (variableName arc) (Token.color token) currentBinding) bindings in
    (S i, JsMap.del (variableName arc) currentBinding', bindings')
  else (S i, currentBinding, bindings).

Fixpoint checkBindingTraced (w : World.t) (inputArcs : list Arc.t)
    (chosen : list Choice.t) (currentBinding : Binding)
    (bindings : list (Binding * list Choice.t))
  : Binding * list (Binding * list Choice.t) :=
  match inputArcs with
  | [] => (currentBinding, bindings ++ [(currentBinding, chosen)])
  | arc :: rest =>
      match getPlace w (Arc.source arc) with
      | None => (currentBinding, bindings)
      | Some (l, place) =>
          let '(_, currentBinding', bindings') :=
            fold_left (tryTokenTraced (checkBindingTraced w rest) arc l chosen)
                      (Place.tokens place) (0, currentBinding, bindings) in
          (currentBinding', bindings')
      end
  end.

Definition findValidBindingsTraced (w : World.t) (inputArcs : list Arc.t)
  : list (Binding * list Choice.t) :=
  match inputArcs with
  | [] => [([], [])]
  | _ => snd (checkBindingTraced w inputArcs [] [] [])
  end.

(** The tokens of an array that an arc accepts, with their positions
    (counted from [i]), in array order. *)
Fixpoint positions (arc : Arc.t) (l : loc) (tokens : list Token.t) (i : nat)
  : list Choice.t :=
  match tokens with
  | [] => []
  | token :: rest =>
      if matches arc token
      then Choice.mk l i token :: positions arc l rest (S i)
      else positions arc l rest (S i)
  end.

(** The tokens that an input arc can be bound to, in FIFO order. *)
Definition candidates (w : World.t) (arc : Arc.t) : list Choice.t :=
  match getPlace w (Arc.source arc) with
  | None => []
  | Some (l, place) => positions arc l (Place.tokens place) 0
  end.

(** All ways to pick one element from each list, the first list varying
    slowest. *)
Fixpoint product {A} (ls : list (list A)) : list (list A) :=
  match ls with
  | [] => [[]]
  | l :: ls' => flat_map (fun x => map (cons x) (product ls')) l
  end.

(** [b[variableName(arc)] = color] for each arc in turn. *)
Fixpoint assign (arcs : list Arc.t) (choices : list Choice.t) (b : Binding) : Binding :=
  match arcs, choices with
  | arc :: arcs', c :: choices' =>
      assign arcs' choices'
        (JsMap.set (variableName arc) (Token.color (Choice.token c)) b)
  | _, _ => b
  end.

(** Two bindings that give the same value to every variable outside
    [vars]. *)
Definition agreeOff (vars : list string) (b1 b2 : Binding) : Prop :=
  forall key, ~ In key vars -> JsMap.get key b1 = JsMap.get key b2.

(** What is known of a binding emitted below a branch that had chosen
    [chosen] and entered the remaining arcs [arcs] with [entry]: it was
    emitted with [chosen] extended by one choice per remaining arc, and
    it reads as [entry] after the assignments of these choices. *)
Definition emittedFrom (chosen : list Choice.t) (arcs : list Arc.t) (entry : Binding)
    (e : Binding * list Choice.t) : Prop :=
  exists choices,
    snd e = chosen ++ choices /\ length choices = length arcs /\
    forall key, JsMap.get key (fst e) = JsMap.get key (assign arcs choices entry).

(** ** Nets used as concrete instances below *)

Module Examples.
Definition place (id : string) : Place.t := Place.mk id id None [].
Definition arc (id source target : string) : Arc.t :=
  Arc.mk id source target None None None.
Definition transition (id name : string) : Transition.t :=
  Transition.mk id name None None None.

(** [p --a1--> t --a2--> q], one token in [p], a handler that always
    rejects. *)
Definition rejecting : Transition.t :=
  Transition.mk "t" "do:it" None None
    (Some (fun _ => Rejected (Rejection (VStr "boom")))).
Definition rejectingNet : World.t :=
  run [CallAddPlace (place "p"); CallAddPlace (place "q");
       CallAddTransition rejecting;
       CallAddArc (arc "a1" "p" "t"); CallAddArc (arc "a2" "t" "q");
       CallAddToken "p" (VNum 1)] newNet.

(** [start -> search:files -> search_results -> search:file:read ->
    file_read -> write:file], one token in [start]. *)
Definition fileNet : World.t :=
  run [CallAddPlace (place "start"); CallAddPlace (place "search_results");
       CallAddPlace (place "file_read");
       CallAddTransition (transition "search_files" "search:files");
       CallAddTransition (transition "search_read" "search:file:read");
       CallAddTransition (transition "write_file" "write:file");
       CallAddArc (arc "a1" "start" "search_files");
       CallAddArc (arc "a2" "search_files" "search_results");
       CallAddArc (arc "a3" "search_results" "search_read");
       CallAddArc (arc "a4" "search_read" "file_read");
       CallAddArc (arc "a5" "file_read" "write_file");
       CallAddToken "start" (VObject [])] newNet.


(** [p --a1--> t] with two tokens in [p], colored 1 and 2, and a guard
    that accepts only the binding of the second. *)
Definition picky : Transition.t :=
  Transition.mk "t" "pick:two" None
    (Some (fun binding =>
             match JsMap.get "p_token" binding with
             | Some (VNum 2) => true
             | _ => false
             end))
    None.
Definition guardedNet : World.t :=
  run [CallAddPlace (place "p"); CallAddTransition picky;
       CallAddArc (arc "a1" "p" "t");
       CallAddToken "p" (VNum 1); CallAddToken "p" (VNum 2)] newNet.

(** [search_results -> search:file:read] with one token waiting. *)
Definition readyNet : World.t :=
  run [CallAddPlace (place "search_results");
       CallAddTransition (transition "search_read" "search:file:read");
       CallAddArc (arc "a3" "search_results" "search_read");
       CallAddToken "search_results" (VStr "file1.ts")] newNet.

Definition readyHint : SemanticHint.t :=
  hintFor (transition "search_read" "search:file:read")
          [("search_results_token", VStr "file1.ts")].

(** A production cycle: [p --a1--> t --a2--> p], no token in [p]. *)
Definition cyclicNet : World.t :=
  run [CallAddPlace (place "p"); CallAddTransition (transition "t" "loop");
       CallAddArc (arc "a1" "p" "t"); CallAddArc (arc "a2" "t" "p")] newNet.
Definition cyclicState : Snapshot.t :=
  Snapshot.mk [0] [transition "t" "loop"] [arc "a1" "p" "t"; arc "a2" "t" "p"].

(** A token that no call of [addToken] made. *)
Definition forged : Token.t := Token.mk "forged" (VStr "forged") "file_read".

(** Two input arcs [a1], [a2] from the same place [p] to [t], and a
    single token in [p]. *)
Definition sharedPlaceNet : World.t :=
  run [CallAddPlace (place "p"); CallAddTransition (transition "t" "take:two");
       CallAddArc (arc "a1" "p" "t"); CallAddArc (arc "a2" "p" "t");
       CallAddToken "p" (VNum 1)] newNet.
Definition onlyToken : Token.t := Token.mk "token-1" (VNum 1) "p".

(** An arc whose endpoints name nothing. *)
Definition dangling : Arc.t := arc "a" "ghost_place" "ghost_transition".



End Examples.

(** ** Relating a store to a later one *)

(** [p'] is [p] with some tokens taken out and nothing else changed. *)
Definition shrunk (p p' : Place.t) : Prop :=
  Place.id p' = Place.id p /\ Place.name p' = Place.name p /\
  Place.description p' = Place.description p /\
  Place.tokens p' `sublist_of` Place.tokens p.

(** A computation that returns, touches nothing but the token arrays of
    the place objects, and only takes tokens out of them. *)
Definition onlyRemoves (m : M unit) : Prop :=
  forall w, exists h',
    m w = (Return tt, setHeap h' w) /\ Forall2 shrunk (World.heap w) h'.






(** What one round of the removal loop does to a token array. *)
Definition removeFirst (arc : Arc.t) (tokens : list Token.t) : list Token.t :=
  match findIndex (matches arc) tokens with
  | Some tokenIndex => delete tokenIndex tokens
  | None => tokens
  end.

(** The number of tokens of an array that an arc accepts. *)
Definition matching (arc : Arc.t) (tokens : list Token.t) : nat :=
  length (List.filter (matches arc) tokens).

(** A computation that never throws [TransitionNotEnabledError]. *)
Definition neverNotEnabled {A} (m : M A) : Prop :=
  forall w message name hints,
    fst (m w) <> Throw (TransitionNotEnabledError message name hints).



(** The numbers that are [+0], positive and finite, or [+Infinity]. *)
Definition nonneg (x : Float64.float) : Prop :=
  match x with
  | S754_zero false | S754_finite false _ _ | S754_infinity false => True
  | _ => False
  end.

(** The closed form of the confidence heuristic, in binary64
    arithmetic: [min(0.5 + 0.1 * n + (0.2 if threeSegments), 1.0)]. *)
Definition confidenceFormula (n : nat) (threeSegments : bool) : Float64.float :=
  Float64.Math_min
    (Float64.add
       (Float64.add Float64.lit_0_5 (Float64.mul Float64.lit_0_1 (Float64.of_nat n)))
       (if threeSegments then Float64.lit_0_2 else Float64.zero))
    Float64.lit_1_0.

(** ** What calls leave alone *)

(** [p'] is [p] up to its tokens. *)
Definition sameShape (p p' : Place.t) : Prop :=
  Place.id p' = Place.id p /\ Place.name p' = Place.name p /\
  Place.description p' = Place.description p.

(** [w'] has the tables and arcs of [w], the same place objects up to
    their tokens, and a counter that is not smaller. *)
Definition sameStructure (w w' : World.t) : Prop :=
  Net.places (World.net w') = Net.places (World.net w) /\
  Net.transitions (World.net w') = Net.transitions (World.net w) /\
  Net.arcs (World.net w') = Net.arcs (World.net w) /\
  Net.tokenCounter (World.net w) <= Net.tokenCounter (World.net w') /\
  Forall2 sameShape (World.heap w) (World.heap w').

Definition structural {A} (m : M A) : Prop :=
  forall w, sameStructure w (snd (m w)).

(** The tables are keyed by the ids of what they hold: every place id
    leads to a place object of the store that carries this id, every
    transition id to a transition with this id, and no key occurs
    twice. *)
Definition wellFormed (w : World.t) : Prop :=
  (forall k l, In (k, l) (Net.places (World.net w)) ->
               exists place, World.heap w !! l = Some place /\ Place.id place = k) /\
  NoDup (JsMap.keys (Net.places (World.net w))) /\
  (forall k t, In (k, t) (Net.transitions (World.net w)) -> Transition.id t = k) /\
  NoDup (JsMap.keys (Net.transitions (World.net w))).

(** ** Counting tokens *)






(** The number of tokens that the source place of an input arc offers
    to it: those its pattern accepts, none if the source is no place. *)
Definition offered (w : World.t) (arc : Arc.t) : nat :=
  match getPlace w (Arc.source arc) with
  | Some (_, place) => matching arc (Place.tokens place)
  | None => 0
  end.

(** ** Which tokens are taken *)

(** One pass over a token array that takes out the first [n] tokens the
    arc accepts and keeps the others in place. *)
Fixpoint takeOut (n : nat) (arc : Arc.t) (tokens : list Token.t) : list Token.t :=
  match tokens with
  | [] => []
  | token :: rest =>
      if matches arc token then
        match n with
        | O => token :: rest
        | S n' => takeOut n' arc rest
        end
      else token :: takeOut n arc rest
  end.

(** [c] is the earliest token that the source place of [arc] offers. *)
Definition earliest (w : World.t) (arc : Arc.t) (c : Choice.t) : Prop :=
  exists place before after,
    getPlace w (Arc.source arc) = Some (Choice.object c, place) /\
    Place.tokens place = before ++ Choice.token c :: after /\
    Choice.index c = length before /\
    matches arc (Choice.token c) = true /\
    forall t, In t before -> matches arc t = false.

(** ** The patched firing ([integrateContextualHints])

    [integrateContextualHints(net)] replaces [net.fireTransition] by a
    wrapper around the original method: a [TransitionNotEnabledError]
    gets the readable contextual hint as its message and is thrown
    again, anything else passes.  The hint is computed by
    [generateContextualHint], whose path search may fail to return
    ([None], as for [findPathToFulfill]). *)
Definition patchedFireTransition (fuel : nat) (transitionId : string)
    (selectedBinding : option Binding) (w : World.t)
  : option (Completion Value * World.t) :=
  match fireTransition transitionId selectedBinding w with
  | (Throw (TransitionNotEnabledError message name hints), w') =>
      match generateContextualHint fuel w' transitionId with
      | Some hint =>
          Some (Throw (TransitionNotEnabledError
                         (ContextualHint.readable hint) name hints), w')
      | None => None
      end
  | outcome => Some outcome
  end.

(** A ranking of the places for the path search: whenever a transition
    that produces into a place is not enabled (in the diagnostic's
    sense), its input places rank strictly below that place. *)
Definition ranked (w : World.t) (state : Snapshot.t) (rank : string -> nat) : Prop :=
  forall produced consumed transition,
    In produced (Snapshot.arcs state) ->
    findTransition state (Arc.source produced) = Some transition ->
    checkTransitionEnabled w state (Transition.id transition) = false ->
    In consumed (arcsInto state (Transition.id transition)) ->
    rank (Arc.source consumed) < rank (Arc.target produced).

Definition fileRank (placeId : string) : nat :=
  if String.eqb placeId "file_read" then 2
  else if String.eqb placeId "search_results" then 1 else 0.

(** * The tool table of the MCP server

    [MCPPetriNetServer.initializeTools] turns the transitions of the
    net's snapshot into tools, keyed by their MCP names.  Of a tool,
    the fields [name], [description] and [transitionId] are kept; the
    input schema, which nothing below reads, is left out. *)

(** [originalName.replace(/:/g, '_')] *)
Fixpoint convertToMcpName (originalName : string) : string :=
  match originalName with
  | EmptyString => EmptyString
  | String c rest =>
      String (if Ascii.eqb c ":" then "_"%char else c) (convertToMcpName rest)
  end.

Module PetriNetTool.
Record t : Type := mk {
  name : string;
  description : string;
  transitionId : string
}.
End PetriNetTool.

(** The tool that the loop of [initializeTools] makes of a transition. *)
Definition toolOf (transition : Transition.t) : PetriNetTool.t :=
  PetriNetTool.mk
    (convertToMcpName (Transition.name transition))
    (orElse (Transition.description transition)
            ("Execute " ++ Transition.name transition))
    (Transition.id transition).

Definition nextActionsTool : PetriNetTool.t :=
  PetriNetTool.mk
    "get_next_actions"
    "Get semantically appropriate next actions based on current workflow state"
    "meta_hints".

(** [initializeTools()], the resulting [toolsMap] *)
Definition initializeTools (state : Snapshot.t) : list (string * PetriNetTool.t) :=
  let toolsMap :=
    fold_left
      (fun toolsMap transition =>
         JsMap.set (convertToMcpName (Transition.name transition))
                   (toolOf transition) toolsMap)
      (Snapshot.transitions state) [] in
  JsMap.set "get_next_actions" nextActionsTool toolsMap.

(** * The sessions of the workflow logger

    [WorkflowLogger] keeps a [Map] of session objects.  Clock readings
    ([Date.now()], milliseconds) are integers and are given to each
    call; so is the id that [generateSessionId] would produce, which
    depends on the clock and on [Math.random].  The timeout is a whole
    number of minutes.  Writing to the log files is left out. *)

Module SessionInfo.
Record t : Type := mk {
  sessionId : string;
  startTime : Z;
  lastActivity : Z;
  toolCallCount : nat;
  userContext : option string
}.
End SessionInfo.

Module WorkflowLogger.
Record t : Type := mk {
  enabled : bool;
  sessionTimeoutMinutes : Z;
  activeSessions : list (string * SessionInfo.t)
}.
End WorkflowLogger.

(** [new WorkflowLogger(config)]: the defaults are overridden by the
    fields that [config] has. *)
Definition newWorkflowLogger (sessionTimeoutMinutes : option Z) (enabled : option bool)
  : WorkflowLogger.t :=
  WorkflowLogger.mk (default true enabled) (default 10%Z sessionTimeoutMinutes) [].

Definition setSessions (sessions : list (string * SessionInfo.t)) (lg : WorkflowLogger.t)
  : WorkflowLogger.t :=
  WorkflowLogger.mk (WorkflowLogger.enabled lg) (WorkflowLogger.sessionTimeoutMinutes lg)
                    sessions.

Definition timeoutMs (lg : WorkflowLogger.t) : Z :=
  (WorkflowLogger.sessionTimeoutMinutes lg * 60 * 1000)%Z.

(** [now - session.lastActivity < timeoutMs] *)
Definition withinWindow (timeout now : Z) (entry : string * SessionInfo.t) : bool :=
  (now - SessionInfo.lastActivity (snd entry) <? timeout)%Z.

(** [session.lastActivity = now], on the session object of an entry *)
Definition touch (now : Z) (entry : string * SessionInfo.t) : string * SessionInfo.t :=
  let session := snd entry in
  (fst entry,
   SessionInfo.mk (SessionInfo.sessionId session) (SessionInfo.startTime session) now
                  (SessionInfo.toolCallCount session) (SessionInfo.userContext session)).

(** [session.toolCallCount++] *)
Definition countCall (entry : string * SessionInfo.t) : string * SessionInfo.t :=
  let session := snd entry in
  (fst entry,
   SessionInfo.mk (SessionInfo.sessionId session) (SessionInfo.startTime session)
                  (SessionInfo.lastActivity session)
                  (S (SessionInfo.toolCallCount session)) (SessionInfo.userContext session)).

(** [getOrCreateSession(contextHint)].  The session object that the
    method returns is an entry of the map; the result names it by its
    position among the entries. *)
Definition getOrCreateSession (now : Z) (newId : string) (contextHint : option string)
    (lg : WorkflowLogger.t) : nat * WorkflowLogger.t :=
  let sessions := WorkflowLogger.activeSessions lg in
  match findIndex (withinWindow (timeoutMs lg) now) sessions with
  | Some i => (i, setSessions (alter (touch now) i sessions) lg)
  | None =>
      let session := SessionInfo.mk newId now now 0 contextHint in
      let sessions' := JsMap.set newId session sessions in
      (default 0 (findIndex (fun entry => String.eqb newId (fst entry)) sessions'),
       setSessions sessions' lg)
  end.

(** [logToolCall(event)], with [event.contextData?.userContext] as
    [contextHint] *)
Definition logToolCall (now : Z) (newId : string) (contextHint : option string)
    (lg : WorkflowLogger.t) : WorkflowLogger.t :=
  if negb (WorkflowLogger.enabled lg) then lg
  else
    let (i, lg') := getOrCreateSession now newId contextHint lg in
    setSessions (alter countCall i (WorkflowLogger.activeSessions lg')) lg'.

(** One run of the callback that [startSessionCleanup] schedules; a
    disabled logger schedules none. *)
Definition cleanupTick (now : Z) (lg : WorkflowLogger.t) : WorkflowLogger.t :=
  if negb (WorkflowLogger.enabled lg) then lg
  else
    setSessions
      (List.filter
         (fun entry =>
            negb (now - SessionInfo.lastActivity (snd entry) >? timeoutMs lg)%Z)
         (WorkflowLogger.activeSessions lg))
      lg.

(** [getSessionStats()]: [activeSessions] and [totalToolCalls] *)
Definition sessionCount (lg : WorkflowLogger.t) : nat :=
  length (WorkflowLogger.activeSessions lg).
Definition totalToolCalls (lg : WorkflowLogger.t) : nat :=
  fold_left (fun sum session => sum + SessionInfo.toolCallCount session)
            (JsMap.values (WorkflowLogger.activeSessions lg)) 0.

Inductive LoggerCall : Type :=
| LogToolCall (now : Z) (newId : string) (contextHint : option string)
| CleanupTick (now : Z).

Definition callTime (c : LoggerCall) : Z :=
  match c with
  | LogToolCall now _ _ => now
  | CleanupTick now => now
  end.

Definition logged (c : LoggerCall) : option string :=
  match c with
  | LogToolCall _ newId _ => Some newId
  | CleanupTick _ => None
  end.

Definition loggerStep (lg : WorkflowLogger.t) (c : LoggerCall) : WorkflowLogger.t :=
  match c with
  | LogToolCall now newId contextHint => logToolCall now newId contextHint lg
  | CleanupTick now => cleanupTick now lg
  end.

Definition runLogger (calls : list LoggerCall) (lg : WorkflowLogger.t) : WorkflowLogger.t :=
  fold_left loggerStep calls lg.

(** The number of sessions that a call at time [now] could pick up. *)
Definition liveSessions (now : Z) (lg : WorkflowLogger.t) : nat :=
  length (List.filter (withinWindow (timeoutMs lg) now) (WorkflowLogger.activeSessions lg)).

(** ** Plain errors of a firing *)

(** The [Error]s that [m] throws on a store with the structure of [w0]
    all carry a message in [P]. *)
Definition errorsWithin {A} (w0 : World.t) (P : string -> Prop) (m : M A) : Prop :=
  forall w message,
    sameStructure w0 w -> fst (m w) = Throw (Error message) -> P message.

(** An output arc of [transitionId] whose target is no place of [w]. *)
Definition missingTarget (w : World.t) (transitionId : string) (message : string) : Prop :=
  exists arc,
    In arc (getOutputArcs w transitionId) /\
    getPlace w (Arc.target arc) = None /\
    message = ("Place " ++ Arc.target arc ++ " not found")%string.

(** [p --a1--> t --a2--> ghost], one token in [p]; nothing is called
    [ghost]. *)
Definition danglingOutputNet : World.t :=
  run [CallAddPlace (Examples.place "p");
       CallAddTransition (Examples.transition "t" "do:it");
       CallAddArc (Examples.arc "a1" "p" "t"); CallAddArc (Examples.arc "a2" "t" "ghost");
       CallAddToken "p" (VNum 1)] newNet.

(** * Properties *)

(** ** Tables *)

Lemma JsMap_get_set_eq {V} (k : string) (v : V) m :
  JsMap.get k (JsMap.set k v m) = Some v.
Proof.
  induction m as [|[k' v'] m IH]; simpl.
  - now rewrite String.eqb_refl.
  - destruct (String.eqb k k') eqn:E; simpl; rewrite ?String.eqb_refl, ?E; auto.
Qed.

Lemma JsMap_get_set_ne {V} (k k' : string) (v : V) m :
  k <> k' -> JsMap.get k' (JsMap.set k v m) = JsMap.get k' m.
Proof.
  intros Hne. induction m as [|[k0 v0] m IH]; simpl.
  - destruct (String.eqb k' k) eqn:E; auto.
    apply String.eqb_eq in E. congruence.
  - destruct (String.eqb k k0) eqn:E; simpl.
    + apply String.eqb_eq in E. subst k0.
      destruct (String.eqb k' k) eqn:E'; auto.
      apply String.eqb_eq in E'. congruence.
    + now rewrite IH.
Qed.

Lemma JsMap_keys_set {V} (k : string) (v : V) m :
  JsMap.keys (JsMap.set k v m) =
  if existsb (String.eqb k) (JsMap.keys m) then JsMap.keys m else JsMap.keys m ++ [k].
Proof.
  unfold JsMap.keys. induction m as [|[k' v'] m IH]; simpl; auto.
  destruct (String.eqb k k') eqn:E; simpl.
  - apply String.eqb_eq in E. now subst.
  - rewrite IH. now destruct (existsb _ _).
Qed.

(** ** Construction *)

(** C4 (as amended).  The three construction methods never throw and
    validate nothing.  [addPlace] and [addTransition] store their
    argument under its id, overwriting whatever that id held and adding
    a key only when the id is new; [addArc] appends the arc as given,
    whatever its endpoints name. *)
Theorem construction_never_rejects (w : World.t) :
  (forall place : Place.t,
      exists w',
        addPlace place w = (Return tt, w') /\
        getPlace w' (Place.id place) = Some (length (World.heap w), place) /\
        JsMap.keys (Net.places (World.net w')) =
          (if existsb (String.eqb (Place.id place)) (JsMap.keys (Net.places (World.net w)))
           then JsMap.keys (Net.places (World.net w))
           else JsMap.keys (Net.places (World.net w)) ++ [Place.id place])) /\
  (forall transition : Transition.t,
      exists w',
        addTransition transition w = (Return tt, w') /\
        JsMap.get (Transition.id transition) (Net.transitions (World.net w'))
          = Some transition /\
        JsMap.keys (Net.transitions (World.net w')) =
          (if existsb (String.eqb (Transition.id transition))
                      (JsMap.keys (Net.transitions (World.net w)))
           then JsMap.keys (Net.transitions (World.net w))
           else JsMap.keys (Net.transitions (World.net w)) ++ [Transition.id transition])) /\
  (forall arc : Arc.t,
      exists w',
        addArc arc w = (Return tt, w') /\
        Net.arcs (World.net w') = Net.arcs (World.net w) ++ [arc]).
Proof.
  split; [|split].
  - intros place. eexists. split; [reflexivity|]. split.
    + unfold getPlace. simpl. rewrite JsMap_get_set_eq.
      now rewrite list_lookup_middle.
    + simpl. apply JsMap_keys_set.
  - intros transition. eexists. split; [reflexivity|]. split; simpl.
    + apply JsMap_get_set_eq.
    + apply JsMap_keys_set.
  - intros arc. eexists. split; reflexivity.
Qed.

(** C4 (counterexample).  On the empty net, an arc between two ids that
    name nothing is accepted and stored; and a second place, or a second
    transition, with an id already in use is accepted as well and
    replaces the first. *)
Lemma construction_accepts_dangling_and_duplicates :
  getPlace newNet (Arc.source Examples.dangling) = None /\
  JsMap.get (Arc.target Examples.dangling) (Net.transitions (World.net newNet)) = None /\
  addArc Examples.dangling newNet
    = (Return tt, World.mk [] (Net.mk [] [] [Examples.dangling] 0) []) /\
  fst (addPlace (Place.mk "p" "second" None [])
         (snd (addPlace (Place.mk "p" "first" None []) newNet))) = Return tt /\
  option_map snd
    (getPlace (snd (addPlace (Place.mk "p" "second" None [])
                      (snd (addPlace (Place.mk "p" "first" None []) newNet)))) "p")
    = Some (Place.mk "p" "second" None []) /\
  fst (addTransition (Examples.transition "t" "second")
         (snd (addTransition (Examples.transition "t" "first") newNet))) = Return tt /\
  JsMap.values
    (Net.transitions
       (World.net (snd (addTransition (Examples.transition "t" "second")
                          (snd (addTransition (Examples.transition "t" "first") newNet))))))
    = [Examples.transition "t" "second"].
Proof. repeat split. Qed.

(** ** Consumption of input tokens *)

Lemma getPlace_heap (w : World.t) (placeId : string) (l : loc) (place : Place.t) :
  getPlace w placeId = Some (l, place) -> World.heap w !! l = Some place.
Proof.
  unfold getPlace. destruct (JsMap.get _ _) as [l0|]; [|discriminate].
  destruct (World.heap w !! l0) eqn:E; [|discriminate].
  intros [= -> ->]. assumption.
Qed.


Lemma shrunk_refl p : shrunk p p.
Proof. repeat split; reflexivity. Qed.

Lemma shrunk_trans p q r : shrunk p q -> shrunk q r -> shrunk p r.
Proof.
  intros (?&?&?&?) (?&?&?&?). repeat split; try congruence.
  etransitivity; eassumption.
Qed.

Lemma heap_shrunk_refl h : Forall2 shrunk h h.
Proof. induction h; constructor; auto using shrunk_refl. Qed.

Lemma heap_shrunk_trans h1 h2 h3 :
  Forall2 shrunk h1 h2 -> Forall2 shrunk h2 h3 -> Forall2 shrunk h1 h3.
Proof.
  intros H12. revert h3. induction H12; intros h3 H23; inversion H23; subst;
    constructor; eauto using shrunk_trans.
Qed.

Lemma setHeap_id w : setHeap (World.heap w) w = w.
Proof. now destruct w. Qed.

Lemma onlyRemoves_ret : onlyRemoves (ret tt).
Proof.
  intros w. exists (World.heap w). rewrite setHeap_id.
  split; [reflexivity | apply heap_shrunk_refl].
Qed.

Lemma onlyRemoves_bind (m : M unit) (k : unit -> M unit) :
  onlyRemoves m -> (forall u, onlyRemoves (k u)) -> onlyRemoves (bind m k).
Proof.
  intros Hm Hk w. destruct (Hm w) as (h1 & E1 & S1).
  destruct (Hk tt (setHeap h1 w)) as (h2 & E2 & S2).
  exists h2. unfold bind. rewrite E1, E2. split; [reflexivity|].
  eapply heap_shrunk_trans; eassumption.
Qed.

Lemma onlyRemoves_repeatM n body : onlyRemoves body -> onlyRemoves (repeatM n body).
Proof.
  intros Hb. induction n; simpl.
  - apply onlyRemoves_ret.
  - apply onlyRemoves_bind; auto.
Qed.

Lemma onlyRemoves_forM {A} (xs : list A) body :
  (forall x, onlyRemoves (body x)) -> onlyRemoves (forM xs body).
Proof.
  intros Hb. induction xs; simpl.
  - apply onlyRemoves_ret.
  - apply onlyRemoves_bind; auto.
Qed.

Lemma onlyRemoves_removeMatching l arc : onlyRemoves (removeMatching l arc).
Proof.
  intros w. unfold removeMatching.
  destruct (World.heap w !! l) as [place|] eqn:El.
  2:{ exists (World.heap w). rewrite setHeap_id. auto using heap_shrunk_refl. }
  destruct (findIndex _ _) as [i|].
  2:{ exists (World.heap w). rewrite setHeap_id. auto using heap_shrunk_refl. }
  eexists. split; [reflexivity|].
  rewrite <- (list_insert_id _ _ _ El) at 1.
  apply Forall2_insert; [apply heap_shrunk_refl|].
  repeat split. simpl. apply sublist_delete.
Qed.

Lemma onlyRemoves_consumeArc arc : onlyRemoves (consumeArc arc).
Proof.
  intros w. unfold consumeArc.
  destruct (getPlace w (Arc.source arc)) as [[l ?]|].
  - apply onlyRemoves_repeatM, onlyRemoves_removeMatching.
  - apply onlyRemoves_ret.
Qed.

(** ** Firing: the failure paths *)

(** A firing that goes through, for reference: in the file net,
    [search:files] takes the token of [start] and puts one, colored with
    the binding, into [search_results]; [search:file:read] is then the
    one enabled transition, with confidence 0.8. *)
Example fire_search_files :
  fst (fireTransition "search_files" None Examples.fileNet)
    = Return (VObject [("start_token", VObject [])]) /\
  tokensAt (snd (fireTransition "search_files" None Examples.fileNet)) "start"
    = Some [] /\
  tokensAt (snd (fireTransition "search_files" None Examples.fileNet)) "search_results"
    = Some [Token.mk "token-2" (VObject [("start_token", VObject [])]) "search_results"] /\
  map (fun h => (SemanticHint.transitionName h, SemanticHint.confidence h))
      (getEnabledTransitions (snd (fireTransition "search_files" None Examples.fileNet)))
    = [("search:file:read", Float64.lit_0_8)].
Proof. repeat split. Qed.

(** C8.  When the transition exists, no binding is supplied and the
    search finds none, [fireTransition] throws a
    [TransitionNotEnabledError] whose hint list is what
    [getEnabledTransitions] returns in the current state, and the store
    is left exactly as it was. *)
Theorem fire_without_candidates (w : World.t) (transitionId : string)
    (transition : Transition.t) :
  JsMap.get transitionId (Net.transitions (World.net w)) = Some transition ->
  findValidBindings w (getInputArcs w transitionId) = [] ->
  fireTransition transitionId None w =
    (Throw (TransitionNotEnabledError
              ("Transition " ++ transitionId ++ " is not enabled")
              (Transition.name transition)
              (getEnabledTransitions w)), w).
Proof.
  intros Ht Hb. unfold fireTransition. rewrite Ht.
  unfold candidateBindings. rewrite Hb. reflexivity.
Qed.

Lemma fire_without_candidates_witness :
  fireTransition "write_file" None Examples.fileNet =
    (Throw (TransitionNotEnabledError
              "Transition write_file is not enabled" "write:file"
              (getEnabledTransitions Examples.fileNet)), Examples.fileNet).
Proof.
  apply (fire_without_candidates Examples.fileNet "write_file"
           (Examples.transition "write_file" "write:file")); reflexivity.
Defined.

(** C1 (as amended).  When [fireTransition] reaches the handler and the
    handler rejects, the removal of input tokens has already been
    carried out and is not undone: the store left behind is the one
    produced by the removal loop, in which every place object holds a
    subsequence of its former tokens.  Nothing is produced (the net's
    fields, the token counter and the history of minted ids are
    unchanged), and what the caller receives is the handler's own
    rejection reason, whatever it is. *)
Theorem fire_handler_rejects (w : World.t) (transitionId : string)
    (selectedBinding : option Binding) (transition : Transition.t)
    (binding : Binding) (others : list Binding)
    (handler : Binding -> Settled) (thrown : Exn) :
  JsMap.get transitionId (Net.transitions (World.net w)) = Some transition ->
  candidateBindings w (getInputArcs w transitionId) selectedBinding = binding :: others ->
  guardAccepts transition binding = true ->
  Transition.handler transition = Some handler ->
  handler binding = Rejected thrown ->
  exists h',
    fireTransition transitionId selectedBinding w
      = (Throw thrown, setHeap h' w) /\
    forM (getInputArcs w transitionId) consumeArc w = (Return tt, setHeap h' w) /\
    Forall2 shrunk (World.heap w) h'.
Proof.
  intros Ht Hc Hg Hh Hr.
  destruct (onlyRemoves_forM (getInputArcs w transitionId) consumeArc
              onlyRemoves_consumeArc w) as (h' & E & S).
  exists h'. split; [|split]; auto.
  unfold fireTransition. rewrite Ht. simpl. rewrite Hc, Hg. simpl.
  unfold commit, bind. rewrite E.
  unfold runHandler. rewrite Hh, Hr. reflexivity.
Qed.

Lemma fire_handler_rejects_witness :
  exists h',
    fireTransition "t" None Examples.rejectingNet
      = (Throw (Rejection (VStr "boom")), setHeap h' Examples.rejectingNet) /\
    forM (getInputArcs Examples.rejectingNet "t") consumeArc Examples.rejectingNet
      = (Return tt, setHeap h' Examples.rejectingNet) /\
    Forall2 shrunk (World.heap Examples.rejectingNet) h'.
Proof.
  apply (fire_handler_rejects Examples.rejectingNet "t" None Examples.rejecting
           [("p_token", VNum 1)] [] (fun _ => Rejected (Rejection (VStr "boom")))
           (Rejection (VStr "boom")));
    reflexivity.
Defined.

(** C1 (counterexample).  In the net [p -> t -> q] with one token in [p]
    and a handler that rejects, the failed call has emptied [p]. *)
Lemma fire_handler_rejects_loses_tokens :
  fst (fireTransition "t" None Examples.rejectingNet)
    = Throw (Rejection (VStr "boom")) /\
  tokensAt Examples.rejectingNet "p" = Some [Token.mk "token-1" (VNum 1) "p"] /\
  tokensAt (snd (fireTransition "t" None Examples.rejectingNet)) "p" = Some [] /\
  tokensAt (snd (fireTransition "t" None Examples.rejectingNet)) "p"
    <> tokensAt Examples.rejectingNet "p".
Proof. repeat split. discriminate. Qed.

(** ** Production of output tokens *)
















(** ** Firing with a supplied binding *)






Lemma removeMatching_spec (l : loc) (arc : Arc.t) (w : World.t) (place : Place.t) :
  World.heap w !! l = Some place ->
  removeMatching l arc w =
    (Return tt,
     setHeap (<[l := Place.with_tokens place (removeFirst arc (Place.tokens place))]>
                (World.heap w)) w).
Proof.
  intros El. unfold removeMatching, removeFirst. rewrite El.
  destruct (findIndex _ _); [reflexivity|].
  f_equal. rewrite list_insert_id; [now rewrite setHeap_id|].
  rewrite El. now destruct place.
Qed.

Lemma repeat_removeMatching_spec (l : loc) (arc : Arc.t) (n : nat) :
  forall (w : World.t) (place : Place.t),
    World.heap w !! l = Some place ->
    repeatM n (removeMatching l arc) w =
      (Return tt,
       setHeap (<[l := Place.with_tokens place
                         (Nat.iter n (removeFirst arc) (Place.tokens place))]>
                  (World.heap w)) w).
Proof.
  induction n as [|n IH]; intros w place El.
  - simpl. unfold ret. f_equal. rewrite list_insert_id; [now rewrite setHeap_id|].
    rewrite El. now destruct place.
  - simpl. unfold bind. rewrite (removeMatching_spec l arc w place El).
    erewrite IH.
    2:{ simpl. apply list_lookup_insert_eq. eapply lookup_lt_Some; eassumption. }
    simpl. rewrite list_insert_insert_eq.
    assert (Hswap : forall ts, Nat.iter n (removeFirst arc) (removeFirst arc ts)
                               = removeFirst arc (Nat.iter n (removeFirst arc) ts)).
    { clear. induction n; intros ts; simpl; [reflexivity | now rewrite IHn]. }
    rewrite Hswap. reflexivity.
Qed.


Lemma runHandler_pure (transition : Transition.t) (binding : Binding) (w : World.t) :
  snd (runHandler transition binding w) = w.
Proof.
  unfold runHandler. destruct (Transition.handler transition) as [h|]; [|reflexivity].
  destruct (h binding); reflexivity.
Qed.

Lemma commit_handler_rejects (transitionId : string) (transition : Transition.t)
    (inputArcs : list Arc.t) (binding : Binding) (handler : Binding -> Settled)
    (thrown : Exn) (w : World.t) :
  Transition.handler transition = Some handler ->
  handler binding = Rejected thrown ->
  commit transitionId transition inputArcs binding w
  = (Throw thrown, snd (forM inputArcs consumeArc w)).
Proof.
  intros Hh Hr.
  destruct (onlyRemoves_forM inputArcs consumeArc onlyRemoves_consumeArc w)
    as (h' & E & _).
  unfold commit, bind. rewrite E. unfold runHandler. rewrite Hh, Hr. reflexivity.
Qed.




(** ** Firing and the guard *)

Lemma neverNotEnabled_ret {A} (a : A) : neverNotEnabled (ret a).
Proof. intros w ? ? ?. discriminate. Qed.

Lemma neverNotEnabled_bind {A B} (m : M A) (k : A -> M B) :
  neverNotEnabled m -> (forall a, neverNotEnabled (k a)) -> neverNotEnabled (bind m k).
Proof.
  intros Hm Hk w msg n h. unfold bind.
  specialize (Hm w msg n h). destruct (m w) as [[a|e] w']; simpl in *.
  - apply Hk.
  - intros [= ->]. now apply Hm.
Qed.

Lemma neverNotEnabled_repeatM n (body : M unit) :
  neverNotEnabled body -> neverNotEnabled (repeatM n body).
Proof.
  intros Hb. induction n; simpl;
    auto using neverNotEnabled_ret, neverNotEnabled_bind.
Qed.

Lemma neverNotEnabled_forM {A} (xs : list A) (body : A -> M unit) :
  (forall x, neverNotEnabled (body x)) -> neverNotEnabled (forM xs body).
Proof.
  intros Hb. induction xs; simpl;
    auto using neverNotEnabled_ret, neverNotEnabled_bind.
Qed.

Lemma neverNotEnabled_consumption (inputArcs : list Arc.t) :
  neverNotEnabled (forM inputArcs consumeArc).
Proof.
  intros w msg n h.
  destruct (onlyRemoves_forM inputArcs consumeArc onlyRemoves_consumeArc w)
    as (h' & -> & _). discriminate.
Qed.

Lemma neverNotEnabled_production (result : Value) (outputArcs : list Arc.t) :
  neverNotEnabled (forM outputArcs (produceArc result)).
Proof.
  apply neverNotEnabled_forM. intros arc.
  apply neverNotEnabled_repeatM, neverNotEnabled_bind;
    [|intros; apply neverNotEnabled_ret].
  intros w0 msg n h. unfold addToken.
  destruct (getPlace w0 (Arc.target arc)) as [[? ?]|]; discriminate.
Qed.

(** Removal and production never throw [TransitionNotEnabledError]:
    when the three statements after the guard check end in this error,
    the handler threw it. *)
Lemma commit_not_enabled transitionId transition inputArcs binding (w : World.t)
    (message name : string) (hints : list SemanticHint.t) :
  fst (commit transitionId transition inputArcs binding w)
    = Throw (TransitionNotEnabledError message name hints) ->
  exists handler,
    Transition.handler transition = Some handler /\
    handler binding = Rejected (TransitionNotEnabledError message name hints).
Proof.
  unfold commit, bind.
  destruct (onlyRemoves_forM inputArcs consumeArc onlyRemoves_consumeArc w)
    as (h' & -> & _).
  unfold runHandler.
  destruct (Transition.handler transition) as [handler|].
  - destruct (handler binding) as [result|thrown] eqn:Hr.
    + unfold ret.
      pose proof (neverNotEnabled_production result
                    (getOutputArcs (setHeap h' w) transitionId) (setHeap h' w)
                    message name hints) as Hp.
      destruct (forM _ _ (setHeap h' w)) as [[[]|e] w1]; simpl in *;
        [discriminate | intros [= ->]; exfalso; now apply Hp].
    + unfold throw. simpl. intros [= ->]. eauto.
  - unfold ret.
    pose proof (neverNotEnabled_production (VObject binding)
                  (getOutputArcs (setHeap h' w) transitionId) (setHeap h' w)
                  message name hints) as Hp.
    destruct (forM _ _ (setHeap h' w)) as [[[]|e] w1]; simpl in *;
      [discriminate | intros [= ->]; exfalso; now apply Hp].
Qed.

(** What the code does with the guard: without a supplied binding, the
    call ends in [TransitionNotEnabledError] exactly when the search
    finds nothing, or the guard rejects the first binding found, or the
    handler, run on that binding, throws an error of this class
    itself. *)
Lemma fire_not_enabled_iff (w : World.t) (transitionId : string)
    (transition : Transition.t) :
  JsMap.get transitionId (Net.transitions (World.net w)) = Some transition ->
  (exists message name hints,
      fst (fireTransition transitionId None w)
        = Throw (TransitionNotEnabledError message name hints)) <->
  match findValidBindings w (getInputArcs w transitionId) with
  | [] => True
  | first :: _ =>
      guardAccepts transition first = false \/
      exists handler message name hints,
        Transition.handler transition = Some handler /\
        handler first = Rejected (TransitionNotEnabledError message name hints)
  end.
Proof.
  intros Ht. unfold fireTransition. rewrite Ht. simpl.
  destruct (findValidBindings w (getInputArcs w transitionId)) as [|first others].
  - split; [trivial|]. intros _. simpl. eauto.
  - destruct (guardAccepts transition first) eqn:Hg; simpl.
    + split.
      * intros (msg & n & h & E). right.
        destruct (commit_not_enabled _ _ _ _ _ _ _ _ E) as (handler & Hh & Hr).
        eauto 8.
      * intros [Hf|(handler & msg & n & h & Hh & Hr)]; [discriminate|].
        exists msg, n, h.
        now rewrite (commit_handler_rejects _ _ _ _ handler _ w Hh Hr).
    + split; [now left|]. intros _. eauto.
Qed.

(** C3 (the code at the failing input).  In the net [p -> t] with
    tokens colored 1 and 2 in [p] and a guard that accepts only the
    second binding, the search finds both bindings, the guard accepts
    one of them, [getEnabledTransitions] lists [t] as enabled, and yet
    [fireTransition] throws [TransitionNotEnabledError], carrying a hint
    list that names [t] itself, because only the first binding is put to
    the guard. *)
Theorem fire_guard_sees_first_binding_only :
  let w := Examples.guardedNet in
  findValidBindings w (getInputArcs w "t")
    = [[("p_token", VNum 1)]; [("p_token", VNum 2)]] /\
  guardAccepts Examples.picky [("p_token", VNum 1)] = false /\
  guardAccepts Examples.picky [("p_token", VNum 2)] = true /\
  map SemanticHint.transitionId (getEnabledTransitions w) = ["t"] /\
  fireTransition "t" None w
    = (Throw (TransitionNotEnabledError
                "Guard condition failed for transition t" "pick:two"
                (getEnabledTransitions w)), w).
Proof. repeat split. Qed.

(** ** Token identifiers *)















Lemma getPlace_after_push (w : World.t) (placeId : string) (l : loc)
    (place place' : Place.t) (n : Net.t) (ids : list string) :
  getPlace w placeId = Some (l, place) ->
  Net.places n = Net.places (World.net w) ->
  getPlace (World.mk (<[l := place']> (World.heap w)) n ids) placeId = Some (l, place').
Proof.
  intros Hg Hn. pose proof (getPlace_heap _ _ _ _ Hg) as El.
  unfold getPlace in *. simpl. rewrite Hn.
  destruct (JsMap.get placeId _) as [l0|]; [|discriminate].
  destruct (World.heap w !! l0); [|discriminate]. injection Hg as -> _.
  rewrite list_lookup_insert_eq; [reflexivity|].
  eapply lookup_lt_Some; eassumption.
Qed.



(** ** Confidence *)

(** The literals denote the correctly rounded decimal fractions. *)
Lemma literals_correct :
  Float64.lit_0_1 = Float64.div (Float64.of_Z 1) (Float64.of_Z 10) /\
  Float64.lit_0_2 = Float64.div (Float64.of_Z 2) (Float64.of_Z 10) /\
  Float64.lit_0_5 = Float64.div (Float64.of_Z 5) (Float64.of_Z 10) /\
  Float64.lit_0_8 = Float64.div (Float64.of_Z 8) (Float64.of_Z 10) /\
  Float64.lit_1_0 = Float64.of_Z 1.
Proof. repeat split; vm_compute; reflexivity. Qed.

Lemma shr_1_nonneg (mrs : shr_record) :
  (0 <= shr_m mrs)%Z -> (0 <= shr_m (shr_1 mrs))%Z.
Proof. destruct mrs as [m r s]. destruct m as [|[p|p|]|p]; simpl; lia. Qed.

Lemma iter_shr_1_nonneg (p : positive) :
  forall mrs, (0 <= shr_m mrs)%Z -> (0 <= shr_m (SpecFloat.iter_pos shr_1 p mrs))%Z.
Proof. induction p; intros mrs H; simpl; auto using shr_1_nonneg. Qed.

Lemma shr_nonneg (mrs : shr_record) (e n : Z) :
  (0 <= shr_m mrs)%Z -> (0 <= shr_m (fst (shr mrs e n)))%Z.
Proof. intros H. destruct n; simpl; auto using iter_shr_1_nonneg. Qed.

Lemma shr_fexp_nonneg (m e : Z) (l : location) :
  (0 <= m)%Z -> (0 <= shr_m (fst (shr_fexp Float64.prec Float64.emax m e l)))%Z.
Proof.
  intros H. unfold shr_fexp. apply shr_nonneg. destruct l as [|[]]; exact H.
Qed.

Lemma round_nearest_even_nonneg (m : Z) (l : location) :
  (0 <= m)%Z -> (0 <= round_nearest_even m l)%Z.
Proof.
  intros H. destruct l as [|[]]; simpl; try lia. destruct (Z.even m); lia.
Qed.

Lemma binary_round_aux_nonneg (m e : Z) (l : location) :
  (0 <= m)%Z -> nonneg (binary_round_aux Float64.prec Float64.emax false m e l).
Proof.
  intros H. unfold binary_round_aux.
  pose proof (shr_fexp_nonneg m e l H) as H1.
  destruct (shr_fexp Float64.prec Float64.emax m e l) as [mrs' e']. simpl in H1.
  pose proof (shr_fexp_nonneg _ e' loc_Exact
                (round_nearest_even_nonneg _ (loc_of_shr_record mrs') H1)) as H2.
  destruct (shr_fexp Float64.prec Float64.emax _ e' loc_Exact) as [mrs'' e''].
  simpl in H2. destruct (shr_m mrs'') as [|q|q]; simpl; [trivial | | lia].
  destruct (Z.leb e'' _); exact I.
Qed.

Lemma binary_normalize_nonneg (m e : Z) :
  (0 <= m)%Z -> nonneg (binary_normalize Float64.prec Float64.emax m e false).
Proof.
  intros H. destruct m as [|q|q]; simpl; [trivial | | lia].
  unfold binary_round. destruct (shl_align _ _ _) as [mz ez].
  apply binary_round_aux_nonneg. lia.
Qed.

Lemma of_nat_nonneg (n : nat) : nonneg (Float64.of_nat n).
Proof. apply binary_normalize_nonneg. lia. Qed.

Lemma mul_nonneg (s : positive) (e : Z) (y : Float64.float) :
  nonneg y -> nonneg (Float64.mul (S754_finite false s e) y).
Proof.
  destruct y as [[]|[]| |[] my ey]; simpl; try tauto. intros _.
  apply binary_round_aux_nonneg. lia.
Qed.

Lemma add_nonneg (x y : Float64.float) :
  nonneg x -> nonneg y -> nonneg (Float64.add x y).
Proof.
  destruct x as [[]|[]| |[] mx ex]; try (simpl; tauto);
    destruct y as [[]|[]| |[] my ey]; try (simpl; tauto).
  intros _ _. unfold Float64.add, SFadd. apply binary_normalize_nonneg.
  unfold cond_Zopp. lia.
Qed.

Lemma add_zero_r (x : Float64.float) : nonneg x -> Float64.add x Float64.zero = x.
Proof. destruct x as [[]|[]| |[] mx ex]; simpl; tauto. Qed.

Lemma min_one_bounds (x : Float64.float) :
  nonneg x ->
  Float64.leb Float64.zero (Float64.Math_min x Float64.lit_1_0) = true /\
  Float64.leb (Float64.Math_min x Float64.lit_1_0) Float64.lit_1_0 = true.
Proof.
  destruct x as [[]|[]| |[] mx ex]; try (simpl; tauto); intros _;
    try (split; reflexivity).
  assert (Hc : exists c, SFcompare (S754_finite false mx ex) Float64.lit_1_0 = Some c).
  { unfold Float64.lit_1_0. cbv [SFcompare]. eauto. }
  destruct Hc as [c Hc].
  unfold Float64.Math_min, Float64.leb. rewrite Hc.
  destruct c.
  - rewrite Hc. split; reflexivity.
  - rewrite Hc. split; reflexivity.
  - split; vm_compute; reflexivity.
Qed.

Lemma calculateConfidence_formula (transition : Transition.t) (binding : Binding) :
  calculateConfidence transition binding =
  confidenceFormula (length (JsMap.keys binding))
    (Nat.eqb (length (split_colon (Transition.name transition))) 3).
Proof.
  unfold calculateConfidence, confidenceFormula.
  set (n := length (JsMap.keys binding)).
  set (three := Nat.eqb _ 3).
  assert (Hbase :
    (if Nat.ltb 0 n
     then Float64.add Float64.lit_0_5 (Float64.mul Float64.lit_0_1 (Float64.of_nat n))
     else Float64.lit_0_5)
    = Float64.add Float64.lit_0_5 (Float64.mul Float64.lit_0_1 (Float64.of_nat n))).
  { destruct n; reflexivity. }
  rewrite Hbase. destruct three; [reflexivity|].
  rewrite add_zero_r; [reflexivity|].
  apply add_nonneg; [exact I | apply mul_nonneg, of_nat_nonneg].
Qed.

Lemma confidenceFormula_bounds (n : nat) (three : bool) :
  Float64.leb Float64.zero (confidenceFormula n three) = true /\
  Float64.leb (confidenceFormula n three) Float64.lit_1_0 = true.
Proof.
  apply min_one_bounds. apply add_nonneg.
  - apply add_nonneg; [exact I | apply mul_nonneg, of_nat_nonneg].
  - destruct three; exact I.
Qed.

(** The sum is a sum of doubles, taken left to right: with two bound
    variables and a three-segment name it is the double just below the
    one written [0.9]. *)
Example confidence_two_variables :
  confidenceFormula 2 true = S754_finite false 8106479329266892 (-53) /\
  Float64.div (Float64.of_Z 9) (Float64.of_Z 10)
    = S754_finite false 8106479329266893 (-53) /\
  confidenceFormula 5 false = Float64.lit_1_0 /\
  confidenceFormula 0 false = Float64.lit_0_5.
Proof. repeat split; vm_compute; reflexivity. Qed.

(** Sorting keeps the hints it is given. *)
Lemma insertSorted_In {A} (cmp : A -> A -> Float64.float) (x y : A) (l : list A) :
  In x (insertSorted cmp y l) <-> x = y \/ In x l.
Proof.
  induction l as [|z l IH]; simpl.
  - intuition.
  - destruct (Float64.gtb _ _); simpl; [intuition|]. rewrite IH. intuition.
Qed.

Lemma Array_sort_In {A} (cmp : A -> A -> Float64.float) (x : A) (xs : list A) :
  In x (Array_sort cmp xs) <-> In x xs.
Proof.
  unfold Array_sort.
  assert (H : forall acc, In x (fold_left (fun sorted y => insertSorted cmp y sorted) xs acc)
                          <-> In x xs \/ In x acc).
  { induction xs as [|y xs IH]; intros acc; simpl.
    - intuition.
    - rewrite IH, insertSorted_In. intuition. }
  rewrite H. simpl. intuition.
Qed.

Lemma getEnabledTransitions_In (w : World.t) (h : SemanticHint.t) :
  In h (getEnabledTransitions w) ->
  exists transition binding,
    In transition (JsMap.values (Net.transitions (World.net w))) /\
    In binding (findValidBindings w (getInputArcs w (Transition.id transition))) /\
    guardAccepts transition binding = true /\
    h = hintFor transition binding.
Proof.
  unfold getEnabledTransitions. rewrite Array_sort_In, in_flat_map.
  intros (transition & Ht & Hh). unfold hintsOf in Hh.
  apply in_map_iff in Hh. destruct Hh as (binding & <- & Hb).
  apply list_elem_of_In, list_elem_of_filter in Hb. destruct Hb as [Hg Hb].
  exists transition, binding. apply list_elem_of_In in Hb. auto.
Qed.

(** C7.  Every hint returned by [getEnabledTransitions] has, in binary64
    arithmetic, the confidence
    [min(0.5 + 0.1 * n + (0.2 if the name has exactly 3 colon-separated
    segments), 1.0)], where [n] is the number of variables of its
    binding; this number lies between 0 and 1; and for a three-segment
    name with one bound variable it is the double [0.8]. *)
Theorem hint_confidence (w : World.t) (h : SemanticHint.t) :
  In h (getEnabledTransitions w) ->
  let n := length (SemanticHint.requiredTokens h) in
  let threeSegments :=
    Nat.eqb (length (split_colon (SemanticHint.transitionName h))) 3 in
  SemanticHint.confidence h = confidenceFormula n threeSegments /\
  Float64.leb Float64.zero (SemanticHint.confidence h) = true /\
  Float64.leb (SemanticHint.confidence h) Float64.lit_1_0 = true /\
  (n = 1 -> threeSegments = true -> SemanticHint.confidence h = Float64.lit_0_8).
Proof.
  intros Hin n three.
  destruct (getEnabledTransitions_In w h Hin) as (transition & binding & _ & _ & _ & ->).
  subst n three. simpl.
  rewrite calculateConfidence_formula.
  split; [reflexivity|].
  destruct (confidenceFormula_bounds (length (JsMap.keys binding))
              (Nat.eqb (length (split_colon (Transition.name transition))) 3))
    as [H0 H1].
  split; [exact H0|]. split; [exact H1|].
  intros -> ->. vm_compute. reflexivity.
Qed.

Lemma hint_confidence_witness :
  In Examples.readyHint (getEnabledTransitions Examples.readyNet) /\
  SemanticHint.requiredTokens Examples.readyHint = ["search_results_token"] /\
  SemanticHint.confidence Examples.readyHint = Float64.lit_0_8.
Proof.
  assert (Hin : In Examples.readyHint (getEnabledTransitions Examples.readyNet))
    by (left; reflexivity).
  split; [exact Hin|]. split; [reflexivity|].
  destruct (hint_confidence Examples.readyNet Examples.readyHint Hin) as (_ & _ & _ & H).
  apply H; reflexivity.
Defined.

(** ** Path discovery *)

(** On a net without cycle the recursion bottoms out: for [write:file]
    in the file net, two nested calls suffice. *)
Example path_discovery_fileNet :
  generateContextualHint 1 Examples.fileNet "write_file" = None /\
  generateContextualHint 2 Examples.fileNet "write_file"
    = Some (ContextualHint.mk [Text "file content"]
              ["search:files"; "search:file:read"]
              ("write:file needs: file content" ++ newline
               ++ "Try instead: search:files → search:file:read")).
Proof. split; reflexivity. Qed.

(** More fuel never changes a result that was reached. *)
Lemma visitArc_None recur w state (arcs : list Arc.t) :
  fold_left (visitArc recur w state) arcs None = None.
Proof. induction arcs; simpl; auto. Qed.

Lemma visitPlace_None recur w state (places : list string) :
  fold_left (visitPlace recur w state) places None = None.
Proof.
  induction places as [|placeId places IH]; simpl; [reflexivity|].
  unfold visitPlace at 2. now rewrite visitArc_None.
Qed.

Lemma visitArc_step_mono (recur recur' : list string -> option (list string)) w state :
  (forall targets path, recur targets = Some path -> recur' targets = Some path) ->
  forall acc arc path,
    visitArc recur w state acc arc = Some path ->
    visitArc recur' w state acc arc = Some path.
Proof.
  intros Hrec acc arc path. unfold visitArc.
  destruct acc as [p|]; [|discriminate].
  destruct (findTransition state (Arc.source arc)) as [t|]; [|auto].
  destruct (checkTransitionEnabled w state (Transition.id t)); [auto|].
  destruct (recur (getInputPlaces state (Transition.id t))) as [prior|] eqn:E;
    [|discriminate].
  now rewrite (Hrec _ _ E).
Qed.

Lemma visitArc_mono (recur recur' : list string -> option (list string)) w state :
  (forall targets path, recur targets = Some path -> recur' targets = Some path) ->
  forall arcs acc path,
    fold_left (visitArc recur w state) arcs acc = Some path ->
    fold_left (visitArc recur' w state) arcs acc = Some path.
Proof.
  intros Hrec. induction arcs as [|arc arcs IH]; intros acc path H; simpl in *; [auto|].
  destruct (visitArc recur w state acc arc) as [q|] eqn:E.
  - rewrite (visitArc_step_mono recur recur' w state Hrec _ _ _ E). now apply IH.
  - rewrite visitArc_None in H. discriminate.
Qed.

Lemma visitPlace_mono (recur recur' : list string -> option (list string)) w state :
  (forall targets path, recur targets = Some path -> recur' targets = Some path) ->
  forall places acc path,
    fold_left (visitPlace recur w state) places acc = Some path ->
    fold_left (visitPlace recur' w state) places acc = Some path.
Proof.
  intros Hrec. induction places as [|placeId places IH]; intros acc path H;
    simpl in *; [auto|].
  destruct (visitPlace recur w state acc placeId) as [q|] eqn:E.
  - unfold visitPlace in E.
    apply (visitArc_mono recur recur' w state Hrec) in E.
    unfold visitPlace at 2. rewrite E. now apply IH.
  - rewrite visitPlace_None in H. discriminate.
Qed.

Lemma findPathToFulfill_mono (w : World.t) (state : Snapshot.t) (fuel : nat) :
  forall targets path,
    findPathToFulfill fuel w state targets = Some path ->
    findPathToFulfill (S fuel) w state targets = Some path.
Proof.
  induction fuel as [|fuel IH]; intros targets path; [discriminate|].
  intros H. simpl in H.
  change (findPathToFulfill (S (S fuel)) w state targets)
    with (option_map (dedupe [])
            (fold_left (visitPlace (findPathToFulfill (S fuel) w state) w state)
               targets (Some []))).
  destruct (fold_left (visitPlace (findPathToFulfill fuel w state) w state)
              targets (Some [])) as [q|] eqn:E; [|discriminate].
  now rewrite (visitPlace_mono _ _ w state IH _ _ _ E).
Qed.

Lemma findPath_cycle_step (fuel : nat) :
  findPathToFulfill (S fuel) Examples.cyclicNet Examples.cyclicState ["p"] =
  option_map (dedupe [])
    match findPathToFulfill fuel Examples.cyclicNet Examples.cyclicState ["p"] with
    | None => None
    | Some priorPath => Some ([] ++ priorPath ++ ["loop"])
    end.
Proof. reflexivity. Qed.

(** C5 (the code at the failing input).  On the net
    [p -> t -> p] with [p] empty, the call
    [findPathToFulfill(state, ["p"])] made for the blocked transition
    [t] calls itself with the same arguments: whatever depth of nested
    calls is allowed, the evaluation exceeds it, so neither the path
    search nor [generateContextualHint] ever returns a path or a report
    that there is none. *)
Theorem path_discovery_cycle_never_returns :
  fst (getState Examples.cyclicNet) = Return Examples.cyclicState /\
  forall fuel,
    findPathToFulfill fuel Examples.cyclicNet Examples.cyclicState ["p"] = None /\
    generateContextualHint fuel Examples.cyclicNet "t" = None.
Proof.
  split; [reflexivity|].
  assert (H : forall fuel,
             findPathToFulfill fuel Examples.cyclicNet Examples.cyclicState ["p"] = None).
  { induction fuel as [|fuel IH]; [reflexivity|].
    rewrite findPath_cycle_step, IH. reflexivity. }
  intros fuel. split; [apply H|].
  change (generateContextualHint fuel Examples.cyclicNet "t")
    with (match findPathToFulfill fuel Examples.cyclicNet Examples.cyclicState ["p"] with
          | None => None
          | Some suggestedPath =>
              Some (ContextualHint.mk [Text "p"] suggestedPath
                      (buildReadableHint (Examples.transition "t" "loop")
                         [Text "p"] suggestedPath))
          end).
  now rewrite H.
Qed.

(** ** Introspection *)

Lemma JsMap_get_In_values {V} (k : string) (v : V) m :
  JsMap.get k m = Some v -> In v (JsMap.values m).
Proof.
  unfold JsMap.values. induction m as [|[k' v'] m IH]; simpl; [discriminate|].
  destruct (String.eqb k k'); [intros [= ->]; now left | auto].
Qed.

(** C6 (as amended).  [getState] changes nothing and returns a new
    record, but the [places] it lists are the engine's own place
    objects: for every place of the net, its object is in the snapshot,
    and a token pushed to (or spliced out of) that object's [tokens]
    array is pushed to (or removed from) the engine's place. *)
Theorem getState_shares_place_objects (w : World.t) (placeId : string)
    (l : loc) (place : Place.t) :
  getPlace w placeId = Some (l, place) ->
  exists state,
    getState w = (Return state, w) /\
    In l (Snapshot.places state) /\
    (forall token,
        tokensAt (snd (Caller.pushToken l token w)) placeId
          = Some (Place.tokens place ++ [token])) /\
    (forall i,
        tokensAt (snd (Caller.spliceToken l i w)) placeId
          = Some (delete i (Place.tokens place))).
Proof.
  intros Hg. eexists. split; [reflexivity|]. simpl.
  pose proof (getPlace_heap _ _ _ _ Hg) as El.
  split.
  - unfold getPlace in Hg.
    destruct (JsMap.get placeId _) as [l0|] eqn:E; [|discriminate].
    destruct (World.heap w !! l0); [|discriminate]. injection Hg as -> _.
    eapply JsMap_get_In_values; eassumption.
  - split.
    + intros token. unfold Caller.pushToken, tokensAt. rewrite El. simpl.
      unfold setHeap. erewrite getPlace_after_push; [reflexivity | eassumption | reflexivity].
    + intros i. unfold Caller.spliceToken, tokensAt. rewrite El. simpl.
      unfold setHeap. erewrite getPlace_after_push; [reflexivity | eassumption | reflexivity].
Qed.

Lemma getState_shares_place_objects_witness :
  exists state,
    getState Examples.fileNet = (Return state, Examples.fileNet) /\
    In 2 (Snapshot.places state) /\
    (forall token,
        tokensAt (snd (Caller.pushToken 2 token Examples.fileNet)) "file_read"
          = Some ([] ++ [token])) /\
    (forall i,
        tokensAt (snd (Caller.spliceToken 2 i Examples.fileNet)) "file_read"
          = Some (delete i [])).
Proof.
  apply (getState_shares_place_objects Examples.fileNet "file_read" 2
           (Examples.place "file_read")).
  reflexivity.
Defined.

(** C6 (counterexample).  In the file net, [write:file] cannot fire
    because [file_read] is empty.  The third place of the snapshot is the
    object of [file_read]; after the caller pushes a token of its own
    making to it, without any call to [addToken] or any firing, the
    engine's [file_read] holds that token and [write:file] fires. *)
Lemma getState_snapshot_is_not_read_only :
  option_map Snapshot.places
    (match fst (getState Examples.fileNet) with Return s => Some s | Throw _ => None end)
    = Some [0; 1; 2] /\
  tokensAt Examples.fileNet "file_read" = Some [] /\
  fst (fireTransition "write_file" None Examples.fileNet)
    = Throw (TransitionNotEnabledError "Transition write_file is not enabled"
               "write:file" (getEnabledTransitions Examples.fileNet)) /\
  tokensAt (snd (Caller.pushToken 2 Examples.forged Examples.fileNet)) "file_read"
    = Some [Examples.forged] /\
  fst (fireTransition "write_file" None
         (snd (Caller.pushToken 2 Examples.forged Examples.fileNet)))
    = Return (VObject [("file_read_token", VStr "forged")]).
Proof. repeat split. Qed.

(** ** The binding search *)

Lemma JsMap_get_del_ne {V} (k k' : string) (m : list (string * V)) :
  k <> k' -> JsMap.get k' (JsMap.del k m) = JsMap.get k' m.
Proof.
  intros Hne. induction m as [|[k0 v0] m IH]; simpl; [reflexivity|].
  destruct (String.eqb k k0) eqn:E; simpl.
  - apply String.eqb_eq in E. subst k0.
    destruct (String.eqb k' k) eqn:E'; [|reflexivity].
    apply String.eqb_eq in E'. congruence.
  - now rewrite IH.
Qed.

(** The replay computes the bindings of the search itself. *)
Lemma tryTokenTraced_erase
    (next : Binding -> list Binding -> Binding * list Binding)
    (nextT : list Choice.t -> Binding -> list (Binding * list Choice.t)
             -> Binding * list (Binding * list Choice.t))
    (arc : Arc.t) (l : loc) (chosen : list Choice.t) :
  (forall ch cb out,
      next cb (map fst out) = (fst (nextT ch cb out), map fst (snd (nextT ch cb out)))) ->
  forall tokens i cb out,
    fold_left (tryToken next arc) tokens (cb, map fst out) =
    (snd (fst (fold_left (tryTokenTraced nextT arc l chosen) tokens (i, cb, out))),
     map fst (snd (fold_left (tryTokenTraced nextT arc l chosen) tokens (i, cb, out)))).
Proof.
  intros Hnext. induction tokens as [|token tokens IH]; intros i cb out; simpl.
  - reflexivity.
  - destruct (matches arc token).
    + rewrite (Hnext (chosen ++ [Choice.mk l i token])).
      destruct (nextT _ _ out) as [cb' out']. simpl. apply IH.
    + apply IH.
Qed.

Lemma checkBindingTraced_erase (w : World.t) (inputArcs : list Arc.t) :
  forall chosen cb out,
    checkBinding w inputArcs cb (map fst out) =
    (fst (checkBindingTraced w inputArcs chosen cb out),
     map fst (snd (checkBindingTraced w inputArcs chosen cb out))).
Proof.
  induction inputArcs as [|arc rest IH]; intros chosen cb out; simpl.
  - now rewrite map_app.
  - destruct (getPlace w (Arc.source arc)) as [[l place]|]; [|reflexivity].
    rewrite (tryTokenTraced_erase (checkBinding w rest) (checkBindingTraced w rest)
               arc l chosen IH (Place.tokens place) 0 cb out).
    destruct (fold_left _ _ _) as [[i' cb'] out']. reflexivity.
Qed.

Lemma findValidBindingsTraced_erase (w : World.t) (inputArcs : list Arc.t) :
  findValidBindings w inputArcs = map fst (findValidBindingsTraced w inputArcs).
Proof.
  unfold findValidBindings, findValidBindingsTraced.
  destruct inputArcs as [|arc rest]; [reflexivity|].
  pose proof (checkBindingTraced_erase w (arc :: rest) [] [] []) as H.
  simpl map in H. now rewrite H.
Qed.

(** Which choices are emitted, and in which order. *)
Lemma checkBindingTraced_choices (w : World.t) (inputArcs : list Arc.t) :
  forall chosen cb out,
    map snd (snd (checkBindingTraced w inputArcs chosen cb out)) =
    map snd out ++ map (app chosen) (product (map (candidates w) inputArcs)).
Proof.
  induction inputArcs as [|arc rest IH]; intros chosen cb out.
  - simpl. now rewrite map_app, app_nil_r.
  - cbn [checkBindingTraced map product].
    assert (Hc : candidates w arc =
                 match getPlace w (Arc.source arc) with
                 | None => []
                 | Some (l, place) => positions arc l (Place.tokens place) 0
                 end) by reflexivity.
    rewrite Hc. clear Hc.
    destruct (getPlace w (Arc.source arc)) as [[l place]|];
      [|simpl; now rewrite app_nil_r].
    assert (H : forall tokens i cb out,
      map snd (snd (fold_left (tryTokenTraced (checkBindingTraced w rest) arc l chosen)
                      tokens (i, cb, out))) =
      map snd out ++
      map (app chosen)
        (flat_map (fun x => map (cons x) (product (map (candidates w) rest)))
                  (positions arc l tokens i))).
    { clear cb out. induction tokens as [|token tokens IHt]; intros i cb out; simpl.
      - now rewrite app_nil_r.
      - destruct (matches arc token); [|apply IHt].
        pose proof (IH (chosen ++ [Choice.mk l i token])
                      (JsMap.set (variableName arc) (Token.color token) cb) out) as Hn.
        destruct (checkBindingTraced w rest _ _ out) as [cb' out']. simpl in Hn.
        rewrite IHt, Hn. simpl. rewrite map_app, <- app_assoc. f_equal. f_equal.
        rewrite map_map. apply map_ext. intros x. now rewrite <- app_assoc. }
    specialize (H (Place.tokens place) 0 cb out).
    destruct (fold_left _ _ _) as [[i' cb'] out']. exact H.
Qed.

(** What the emitted bindings contain. *)
Lemma assign_agree (arcs : list Arc.t) :
  forall choices b1 b2,
    length choices = length arcs ->
    agreeOff (map variableName arcs) b1 b2 ->
    forall key, JsMap.get key (assign arcs choices b1) = JsMap.get key (assign arcs choices b2).
Proof.
  induction arcs as [|arc arcs IH]; intros choices b1 b2 Hlen Hag key.
  - destruct choices; [|discriminate]. simpl. apply Hag. simpl. tauto.
  - destruct choices as [|c choices]; [discriminate|]. simpl.
    apply IH; [simpl in Hlen; lia|].
    intros k Hk. destruct (String.eqb (variableName arc) k) eqn:E.
    + apply String.eqb_eq in E. subst k. now rewrite !JsMap_get_set_eq.
    + apply String.eqb_neq in E. rewrite !JsMap_get_set_ne by assumption.
      apply Hag. simpl. intros [?|?]; [congruence | tauto].
Qed.

Lemma checkBindingTraced_bindings (w : World.t) (inputArcs : list Arc.t) :
  forall chosen cb out,
    agreeOff (map variableName inputArcs)
             (fst (checkBindingTraced w inputArcs chosen cb out)) cb /\
    exists new,
      snd (checkBindingTraced w inputArcs chosen cb out) = out ++ new /\
      Forall (emittedFrom chosen inputArcs cb) new.
Proof.
  induction inputArcs as [|arc rest IH]; intros chosen cb out.
  - simpl. split; [intros key _; reflexivity|].
    exists [(cb, chosen)]. split; [reflexivity|]. constructor; [|constructor].
    exists []. simpl. now rewrite app_nil_r.
  - cbn [checkBindingTraced].
    destruct (getPlace w (Arc.source arc)) as [[l place]|].
    2:{ split; [intros key _; reflexivity|]. exists []. now rewrite app_nil_r. }
    assert (H : forall tokens i cbj outj,
      agreeOff (map variableName (arc :: rest)) cbj cb ->
      (exists newj, outj = out ++ newj /\ Forall (emittedFrom chosen (arc :: rest) cb) newj) ->
      agreeOff (map variableName (arc :: rest))
        (snd (fst (fold_left (tryTokenTraced (checkBindingTraced w rest) arc l chosen)
                     tokens (i, cbj, outj)))) cb /\
      exists new,
        snd (fold_left (tryTokenTraced (checkBindingTraced w rest) arc l chosen)
               tokens (i, cbj, outj)) = out ++ new /\
        Forall (emittedFrom chosen (arc :: rest) cb) new).
    { induction tokens as [|token tokens IHt]; intros i cbj outj Hag Hout.
      - simpl. auto.
      - simpl. destruct (matches arc token); [|now apply IHt].
        set (c := Choice.mk l i token).
        set (cb1 := JsMap.set (variableName arc) (Token.color token) cbj).
        destruct (IH (chosen ++ [c]) cb1 outj) as (Hag1 & new1 & Hout1 & Hem1).
        destruct (checkBindingTraced w rest (chosen ++ [c]) cb1 outj) as [cb' out'].
        simpl in Hag1, Hout1. apply IHt.
        + intros key Hkey. simpl in Hkey.
          rewrite JsMap_get_del_ne by tauto.
          rewrite Hag1 by tauto. unfold cb1.
          rewrite JsMap_get_set_ne by tauto. apply Hag. exact Hkey.
        + destruct Hout as (newj & -> & Hemj). exists (newj ++ new1).
          split; [now rewrite Hout1, app_assoc|].
          apply Forall_app. split; [exact Hemj|].
          eapply Forall_impl; [exact Hem1|].
          intros [b c'] (cs & Hc & Hlen & Hget). simpl in *.
          exists (c :: cs). simpl. split; [now rewrite Hc, <- app_assoc|].
          split; [now rewrite Hlen|].
          intros key. rewrite Hget. apply assign_agree; [exact Hlen|].
          intros k Hk. unfold cb1.
          destruct (String.eqb (variableName arc) k) eqn:E.
          * apply String.eqb_eq in E. subst k. now rewrite !JsMap_get_set_eq.
          * apply String.eqb_neq in E. rewrite !JsMap_get_set_ne by assumption.
            apply Hag. simpl. intros [?|?]; [congruence | tauto]. }
    destruct (H (Place.tokens place) 0 cb out) as (Hag & new & Hout & Hem).
    { intros key _. reflexivity. }
    { exists []. split; [now rewrite app_nil_r | constructor]. }
    destruct (fold_left _ _ _) as [[i' cb'] out']. simpl in *. eauto.
Qed.

(** The candidates of an arc are the matching tokens of its place. *)
Lemma positions_spec (arc : Arc.t) (l : loc) (tokens : list Token.t) :
  forall i c,
    In c (positions arc l tokens i) <->
    Choice.object c = l /\ i <= Choice.index c /\
    tokens !! (Choice.index c - i) = Some (Choice.token c) /\
    matches arc (Choice.token c) = true.
Proof.
  induction tokens as [|token tokens IH]; intros i c; simpl.
  - split; [tauto|]. intros (_ & _ & H & _). discriminate.
  - assert (Hrest : In c (positions arc l tokens (S i)) <->
                    Choice.object c = l /\ i < Choice.index c /\
                    (token :: tokens) !! (Choice.index c - i) = Some (Choice.token c) /\
                    matches arc (Choice.token c) = true).
    { rewrite IH. split; intros (H1 & H2 & H3 & H4); repeat split; auto; try lia.
      - replace (Choice.index c - i) with (S (Choice.index c - S i)) by lia. exact H3.
      - replace (Choice.index c - i) with (S (Choice.index c - S i)) in H3 by lia.
        exact H3. }
    assert (Hhere : forall (Hm : matches arc token = true),
               c = Choice.mk l i token <->
               Choice.object c = l /\ i = Choice.index c /\
               (token :: tokens) !! (Choice.index c - i) = Some (Choice.token c)).
    { intros Hm. split.
      - intros ->. simpl. rewrite Nat.sub_diag. auto.
      - destruct c as [o k t]. simpl. intros (-> & -> & H).
        rewrite Nat.sub_diag in H. simpl in H. congruence. }
    destruct (matches arc token) eqn:Hm.
    + simpl. rewrite Hrest. split.
      * intros [<-|(H1 & H2 & H3 & H4)]; [|repeat split; auto; lia].
        simpl. rewrite Nat.sub_diag. auto.
      * intros (H1 & H2 & H3 & H4).
        destruct (Nat.eq_dec i (Choice.index c)) as [E|E].
        -- left. symmetry. apply (Hhere eq_refl). auto.
        -- right. repeat split; auto. lia.
    + rewrite Hrest. split.
      * intros (H1 & H2 & H3 & H4). repeat split; auto. lia.
      * intros (H1 & H2 & H3 & H4). repeat split; auto.
        destruct (Nat.eq_dec i (Choice.index c)) as [E|E]; [|lia].
        rewrite <- E, Nat.sub_diag in H3. simpl in H3. congruence.
Qed.

Lemma positions_increasing (arc : Arc.t) (l : loc) (tokens : list Token.t) :
  forall i, StronglySorted lt (map Choice.index (positions arc l tokens i)) /\
            Forall (le i) (map Choice.index (positions arc l tokens i)).
Proof.
  induction tokens as [|token tokens IH]; intros i; simpl.
  - split; constructor.
  - destruct (IH (S i)) as [Hs Hl]. destruct (matches arc token); simpl.
    + split.
      * constructor; [exact Hs|].
        eapply Forall_impl; [exact Hl|]. simpl. intros; lia.
      * constructor; [lia|].
        eapply Forall_impl; [exact Hl|]. simpl. intros; lia.
    + split; [exact Hs|]. eapply Forall_impl; [exact Hl|]. simpl. intros; lia.
Qed.

Lemma candidates_spec (w : World.t) (arc : Arc.t) (c : Choice.t) :
  In c (candidates w arc) <->
  exists place,
    getPlace w (Arc.source arc) = Some (Choice.object c, place) /\
    Place.tokens place !! Choice.index c = Some (Choice.token c) /\
    matches arc (Choice.token c) = true.
Proof.
  unfold candidates.
  destruct (getPlace w (Arc.source arc)) as [[l place]|].
  - rewrite positions_spec, Nat.sub_0_r. split.
    + intros (<- & _ & H3 & H4). eauto.
    + intros (place' & [= -> ->] & H3 & H4). repeat split; auto. lia.
  - split; [intros [] | intros (? & ? & _); discriminate].
Qed.

(** C2 (as amended).  The search emits exactly one binding for every
    way of giving each input arc, independently of the others, a token
    of its source place that its pattern accepts (any token if it has no
    pattern); the tokens of a place are tried in FIFO order and the
    bindings come out in the order of these choices, earlier arcs
    varying slowest.  Tokens taken by earlier arcs of the branch are not
    set aside.  Each emitted binding reads as the result of assigning,
    arc after arc, the color of the chosen token to the variable named
    after the arc's source place. *)
Theorem binding_search_enumerates_choices (w : World.t) (inputArcs : list Arc.t) :
  findValidBindings w inputArcs = map fst (findValidBindingsTraced w inputArcs) /\
  map snd (findValidBindingsTraced w inputArcs)
    = product (map (candidates w) inputArcs) /\
  (forall binding choices,
      In (binding, choices) (findValidBindingsTraced w inputArcs) ->
      forall key, JsMap.get key binding = JsMap.get key (assign inputArcs choices [])) /\
  (forall arc,
      StronglySorted lt (map Choice.index (candidates w arc)) /\
      forall c,
        In c (candidates w arc) <->
        exists place,
          getPlace w (Arc.source arc) = Some (Choice.object c, place) /\
          Place.tokens place !! Choice.index c = Some (Choice.token c) /\
          matches arc (Choice.token c) = true).
Proof.
  split; [apply findValidBindingsTraced_erase|]. split; [|split].
  - unfold findValidBindingsTraced. destruct inputArcs as [|arc rest]; [reflexivity|].
    rewrite checkBindingTraced_choices.
    generalize (product (map (candidates w) (arc :: rest))). intros ps.
    change (map snd [] ++ map (app []) ps) with (map (fun x : list Choice.t => x) ps).
    apply map_id.
  - intros binding choices Hin. unfold findValidBindingsTraced in Hin.
    destruct inputArcs as [|arc rest].
    + destruct Hin as [[= <- <-]|[]]. reflexivity.
    + destruct (checkBindingTraced_bindings w (arc :: rest) [] [] [])
        as (_ & new & Hout & Hem).
      rewrite Hout in Hin. simpl in Hin.
      rewrite Forall_forall in Hem. apply list_elem_of_In in Hin.
      destruct (Hem _ Hin) as (cs & Hc & _ & Hget). simpl in Hc. subst cs.
      exact Hget.
  - intros arc. split; [|intros c; apply candidates_spec].
    unfold candidates. destruct (getPlace w (Arc.source arc)) as [[l place]|].
    + apply positions_increasing.
    + constructor.
Qed.

Lemma binding_search_enumerates_choices_witness :
  In ([("p_token", VNum 1)], [Choice.mk 0 0 Examples.onlyToken; Choice.mk 0 0 Examples.onlyToken])
     (findValidBindingsTraced Examples.sharedPlaceNet
        (getInputArcs Examples.sharedPlaceNet "t")) /\
  forall key,
    JsMap.get key [("p_token", VNum 1)] =
    JsMap.get key
      (assign (getInputArcs Examples.sharedPlaceNet "t")
         [Choice.mk 0 0 Examples.onlyToken; Choice.mk 0 0 Examples.onlyToken] []).
Proof.
  assert (Hin : In ([("p_token", VNum 1)],
                    [Choice.mk 0 0 Examples.onlyToken; Choice.mk 0 0 Examples.onlyToken])
                   (findValidBindingsTraced Examples.sharedPlaceNet
                      (getInputArcs Examples.sharedPlaceNet "t")))
    by (left; reflexivity).
  split; [exact Hin|].
  destruct (binding_search_enumerates_choices Examples.sharedPlaceNet
              (getInputArcs Examples.sharedPlaceNet "t")) as (_ & _ & H & _).
  exact (H _ _ Hin).
Defined.

(** C2 (counterexample).  With two input arcs from the same place [p]
    and a single token in [p], the search emits a binding in which both
    arcs are bound to that one token (object 0, position 0), and the
    transition fires. *)
Lemma binding_search_binds_one_token_twice :
  tokensAt Examples.sharedPlaceNet "p" = Some [Examples.onlyToken] /\
  map Arc.id (getInputArcs Examples.sharedPlaceNet "t") = ["a1"; "a2"] /\
  findValidBindings Examples.sharedPlaceNet (getInputArcs Examples.sharedPlaceNet "t")
    = [[("p_token", VNum 1)]] /\
  findValidBindingsTraced Examples.sharedPlaceNet
    (getInputArcs Examples.sharedPlaceNet "t")
    = [([("p_token", VNum 1)],
        [Choice.mk 0 0 Examples.onlyToken; Choice.mk 0 0 Examples.onlyToken])] /\
  ~ NoDup [Choice.mk 0 0 Examples.onlyToken; Choice.mk 0 0 Examples.onlyToken] /\
  fst (fireTransition "t" None Examples.sharedPlaceNet)
    = Return (VObject [("p_token", VNum 1)]).
Proof.
  repeat split.
  intros H. apply NoDup_cons in H as [H _]. apply H. left.
Qed.

(** * Further properties of the engine *)

(** ** What a firing leaves alone *)

Lemma sameShape_refl p : sameShape p p.
Proof. repeat split. Qed.

Lemma heap_sameShape_refl h : Forall2 sameShape h h.
Proof. induction h; constructor; auto using sameShape_refl. Qed.

Lemma heap_sameShape_trans h1 h2 h3 :
  Forall2 sameShape h1 h2 -> Forall2 sameShape h2 h3 -> Forall2 sameShape h1 h3.
Proof.
  intros H12. revert h3. induction H12 as [|p q h1 h2 (?&?&?) _ IH];
    intros h3 H23; inversion H23 as [|? r ? ? (?&?&?)]; subst; constructor; auto.
  repeat split; congruence.
Qed.

Lemma sameStructure_refl w : sameStructure w w.
Proof. repeat split; auto using heap_sameShape_refl. Qed.

Lemma sameStructure_trans w1 w2 w3 :
  sameStructure w1 w2 -> sameStructure w2 w3 -> sameStructure w1 w3.
Proof.
  intros (?&?&?&?&?) (?&?&?&?&?). repeat split; try congruence; try lia.
  eapply heap_sameShape_trans; eassumption.
Qed.

Lemma structural_ret {A} (a : A) : structural (ret a).
Proof. intros w. apply sameStructure_refl. Qed.

Lemma structural_bind {A B} (m : M A) (k : A -> M B) :
  structural m -> (forall a, structural (k a)) -> structural (bind m k).
Proof.
  intros Hm Hk w. unfold bind. specialize (Hm w).
  destruct (m w) as [[a|e] w1]; simpl in *; [|exact Hm].
  eapply sameStructure_trans; [exact Hm | apply Hk].
Qed.

Lemma structural_repeatM n (body : M unit) :
  structural body -> structural (repeatM n body).
Proof. intros Hb. induction n; simpl; auto using structural_ret, structural_bind. Qed.

Lemma structural_forM {A} (xs : list A) (body : A -> M unit) :
  (forall x, structural (body x)) -> structural (forM xs body).
Proof. intros Hb. induction xs; simpl; auto using structural_ret, structural_bind. Qed.

Lemma sameStructure_setPlace (w : World.t) (l : loc) (place : Place.t)
    (tokens : list Token.t) (counter : nat) (ids : list string) :
  World.heap w !! l = Some place ->
  Net.tokenCounter (World.net w) <= counter ->
  sameStructure w
    (World.mk (<[l := Place.with_tokens place tokens]> (World.heap w))
       (Net.mk (Net.places (World.net w)) (Net.transitions (World.net w))
          (Net.arcs (World.net w)) counter) ids).
Proof.
  intros El Hc. repeat split; auto. simpl.
  rewrite <- (list_insert_id _ _ _ El) at 1.
  apply Forall2_insert; [apply heap_sameShape_refl | repeat split].
Qed.

Lemma structural_onlyRemoves (m : M unit) : onlyRemoves m -> structural m.
Proof.
  intros Hm w. destruct (Hm w) as (h' & -> & Hs). simpl.
  repeat split; auto. eapply Forall2_impl; [exact Hs|].
  intros p p' (?&?&?&_). repeat split; assumption.
Qed.

Lemma structural_addToken placeId color : structural (addToken placeId color).
Proof.
  intros w. unfold addToken.
  destruct (getPlace w placeId) as [[l place]|] eqn:Hg; [|apply sameStructure_refl].
  simpl. apply sameStructure_setPlace; [eapply getPlace_heap; eassumption | lia].
Qed.

Lemma structural_commit transitionId transition inputArcs binding :
  structural (commit transitionId transition inputArcs binding).
Proof.
  unfold commit. apply structural_bind.
  { apply structural_onlyRemoves, onlyRemoves_forM, onlyRemoves_consumeArc. }
  intros _. apply structural_bind.
  { intros w. rewrite runHandler_pure. apply sameStructure_refl. }
  intros result. apply structural_bind; [|intros; apply structural_ret].
  intros w. apply structural_forM. intros arc.
  apply structural_repeatM, structural_bind;
    [apply structural_addToken | intros; apply structural_ret].
Qed.

Lemma structural_fireTransition transitionId selectedBinding :
  structural (fireTransition transitionId selectedBinding).
Proof.
  intros w. unfold fireTransition.
  destruct (JsMap.get transitionId _) as [transition|]; [|apply sameStructure_refl].
  simpl. destruct (candidateBindings _ _ _) as [|binding others];
    [apply sameStructure_refl|].
  destruct (guardAccepts transition binding); simpl; [|apply sameStructure_refl].
  apply structural_commit.
Qed.

(** X1.  Whatever [fireTransition] does (return, fail before or during
    the handler, fail while producing), it leaves the place table, the
    transition table and the arcs as they were, adds or drops no place
    object, changes no place's id, name or description, and never
    lowers the token counter. *)
Theorem fireTransition_keeps_structure (transitionId : string)
    (selectedBinding : option Binding) (w : World.t) :
  let w' := snd (fireTransition transitionId selectedBinding w) in
  Net.places (World.net w') = Net.places (World.net w) /\
  Net.transitions (World.net w') = Net.transitions (World.net w) /\
  Net.arcs (World.net w') = Net.arcs (World.net w) /\
  Net.tokenCounter (World.net w) <= Net.tokenCounter (World.net w') /\
  length (World.heap w') = length (World.heap w) /\
  forall l place,
    World.heap w !! l = Some place ->
    exists place',
      World.heap w' !! l = Some place' /\
      Place.id place' = Place.id place /\ Place.name place' = Place.name place /\
      Place.description place' = Place.description place.
Proof.
  destruct (structural_fireTransition transitionId selectedBinding w)
    as (Hp & Ht & Ha & Hc & Hh).
  simpl. repeat split; auto.
  - symmetry. eapply Forall2_length; eassumption.
  - intros l place El.
    destruct (Forall2_lookup_l _ _ _ _ _ Hh El) as (place' & El' & (?&?&?)).
    eauto.
Qed.

(** X2.  Where a [TransitionNotEnabledError] comes from.  A call that
    ends in this error, with or without a supplied binding, either
    threw it before touching anything: then the store is exactly as it
    was, the error carries the name of the transition and the hints of
    that unchanged state, and its message says that there was no
    candidate or that the guard rejected the first one; or the guard
    had accepted the first candidate and the error is the one the
    transition's own handler threw, after the input tokens were
    removed. *)
Theorem not_enabled_error_origin (transitionId : string)
    (selectedBinding : option Binding) (w : World.t)
    (message name : string) (hints : list SemanticHint.t) :
  fst (fireTransition transitionId selectedBinding w)
    = Throw (TransitionNotEnabledError message name hints) ->
  exists transition,
    JsMap.get transitionId (Net.transitions (World.net w)) = Some transition /\
    ((snd (fireTransition transitionId selectedBinding w) = w /\
      hints = getEnabledTransitions w /\
      name = Transition.name transition /\
      match candidateBindings w (getInputArcs w transitionId) selectedBinding with
      | [] => message = ("Transition " ++ transitionId ++ " is not enabled")%string
      | first :: _ =>
          guardAccepts transition first = false /\
          message = ("Guard condition failed for transition " ++ transitionId)%string
      end) \/
     (exists first others handler,
         candidateBindings w (getInputArcs w transitionId) selectedBinding
           = first :: others /\
         guardAccepts transition first = true /\
         Transition.handler transition = Some handler /\
         handler first = Rejected (TransitionNotEnabledError message name hints) /\
         snd (fireTransition transitionId selectedBinding w)
           = snd (forM (getInputArcs w transitionId) consumeArc w))).
Proof.
  unfold fireTransition.
  destruct (JsMap.get transitionId _) as [transition|]; [|discriminate].
  cbv zeta. intros E. exists transition. split; [reflexivity|].
  destruct (candidateBindings _ _ _) as [|binding others].
  - left. simpl in *. injection E as <- <- <-. auto.
  - destruct (guardAccepts transition binding) eqn:Hg; cbn [negb] in *.
    + right.
      destruct (commit_not_enabled _ _ _ _ _ _ _ _ E) as (handler & Hh & Hr).
      exists binding, others, handler. repeat split; auto.
      now rewrite (commit_handler_rejects _ _ _ _ handler _ w Hh Hr).
    + left. simpl in *. injection E as <- <- <-. auto.
Qed.

Lemma not_enabled_error_origin_witness :
  snd (fireTransition "t" None Examples.guardedNet) = Examples.guardedNet /\
  map SemanticHint.transitionId (getEnabledTransitions Examples.guardedNet) = ["t"].
Proof.
  destruct (not_enabled_error_origin "t" None Examples.guardedNet
              "Guard condition failed for transition t" "pick:two"
              (getEnabledTransitions Examples.guardedNet) eq_refl)
    as (transition & Ht & [(H & _)|(first & others & handler & _ & _ & Hh & _)]).
  - split; [exact H | reflexivity].
  - exfalso. vm_compute in Ht. injection Ht as <-. discriminate Hh.
Defined.

(** ** The tables stay keyed by ids *)

Lemma JsMap_In_set {V} (k k0 : string) (v v0 : V) m :
  In (k, v) (JsMap.set k0 v0 m) -> (k, v) = (k0, v0) \/ In (k, v) m.
Proof.
  induction m as [|[k' v'] m IH]; simpl.
  - intros [[= <- <-]|[]]. now left.
  - destruct (String.eqb k0 k'); simpl.
    + intros [[= <- <-]|H]; [now left | now right; right].
    + intros [H|H]; [now right; left|]. destruct (IH H); [now left | now right; right].
Qed.

Lemma JsMap_keys_set_NoDup {V} (k : string) (v : V) m :
  NoDup (JsMap.keys m) -> NoDup (JsMap.keys (JsMap.set k v m)).
Proof.
  intros Hnd. rewrite JsMap_keys_set.
  destruct (existsb (String.eqb k) (JsMap.keys m)) eqn:E; [exact Hnd|].
  apply NoDup_app. split; [exact Hnd|]. split; [|apply NoDup_singleton].
  intros x Hx Hk. apply list_elem_of_singleton in Hk. subst x.
  assert (existsb (String.eqb k) (JsMap.keys m) = true); [|congruence].
  apply existsb_exists. exists k. split; [now apply list_elem_of_In | apply String.eqb_refl].
Qed.

Lemma wellFormed_sameStructure (w w' : World.t) :
  wellFormed w -> sameStructure w w' -> wellFormed w'.
Proof.
  intros (Hp & Hpk & Ht & Htk) (Ep & Et & _ & _ & Hh).
  unfold wellFormed. rewrite Ep, Et. repeat split; auto.
  intros k l Hin. destruct (Hp k l Hin) as (place & El & Hid).
  destruct (Forall2_lookup_l _ _ _ _ _ Hh El) as (place' & El' & (Hid' & _)).
  exists place'. split; [exact El' | congruence].
Qed.

Lemma sameStructure_caller_push l token w :
  sameStructure w (snd (Caller.pushToken l token w)).
Proof.
  unfold Caller.pushToken. destruct (World.heap w !! l) as [place|] eqn:El;
    [|apply sameStructure_refl].
  simpl. destruct w as [h [ps ts ars c] ids].
  apply (sameStructure_setPlace (World.mk h (Net.mk ps ts ars c) ids)); auto.
Qed.

Lemma sameStructure_caller_splice l i w :
  sameStructure w (snd (Caller.spliceToken l i w)).
Proof.
  unfold Caller.spliceToken. destruct (World.heap w !! l) as [place|] eqn:El;
    [|apply sameStructure_refl].
  simpl. destruct w as [h [ps ts ars c] ids].
  apply (sameStructure_setPlace (World.mk h (Net.mk ps ts ars c) ids)); auto.
Qed.

Lemma wellFormed_after (c : Call) (w : World.t) : wellFormed w -> wellFormed (after c w).
Proof.
  intros Hw. destruct c; simpl; try exact Hw.
  - destruct Hw as (Hp & Hpk & Ht & Htk). repeat split; simpl; auto.
    + intros k l Hin. apply JsMap_In_set in Hin. destruct Hin as [[= -> ->]|Hin].
      * exists place. split; [apply list_lookup_middle; reflexivity | reflexivity].
      * destruct (Hp k l Hin) as (p & El & Hid). exists p. split; [|exact Hid].
        apply lookup_app_l_Some. exact El.
    + now apply JsMap_keys_set_NoDup.
  - destruct Hw as (Hp & Hpk & Ht & Htk). repeat split; simpl; auto.
    + intros k t Hin. apply JsMap_In_set in Hin. destruct Hin as [[= -> ->]|Hin]; eauto.
    + now apply JsMap_keys_set_NoDup.
  - eapply wellFormed_sameStructure; [exact Hw|]. apply structural_addToken.
  - eapply wellFormed_sameStructure; [exact Hw|]. apply structural_fireTransition.
  - eapply wellFormed_sameStructure; [exact Hw|]. apply sameStructure_caller_push.
  - eapply wellFormed_sameStructure; [exact Hw|]. apply sameStructure_caller_splice.
Qed.

Lemma wellFormed_run (calls : list Call) :
  forall w, wellFormed w -> wellFormed (run calls w).
Proof.
  unfold run. induction calls as [|c calls IH]; intros w Hw; simpl; [exact Hw|].
  apply IH, wellFormed_after, Hw.
Qed.

Lemma wellFormed_newNet : wellFormed newNet.
Proof. repeat split; simpl; try constructor; intros ? ? []. Qed.

Lemma JsMap_get_In {V} (k : string) (v : V) m : JsMap.get k m = Some v -> In (k, v) m.
Proof.
  induction m as [|[k' v'] m IH]; simpl; [discriminate|].
  destruct (String.eqb k k') eqn:E.
  - apply String.eqb_eq in E. intros [= ->]. left. congruence.
  - auto.
Qed.

Lemma JsMap_In_get {V} (k : string) (v : V) m :
  NoDup (JsMap.keys m) -> In (k, v) m -> JsMap.get k m = Some v.
Proof.
  induction m as [|[k' v'] m IH]; simpl; [intros _ []|].
  intros Hnd Hin. apply NoDup_cons in Hnd as [Hk Hnd].
  destruct (String.eqb k k') eqn:E.
  - apply String.eqb_eq in E. subst k'. destruct Hin as [[= ->]|Hin]; [reflexivity|].
    exfalso. apply Hk. apply list_elem_of_In. unfold JsMap.keys.
    apply in_map_iff. exists (k, v). auto.
  - destruct Hin as [[= -> ->]|Hin]; [rewrite String.eqb_refl in E; discriminate|].
    now apply IH.
Qed.

(** X3.  In every state that calls of the API and accesses of callers to
    token arrays can reach from a new net, the tables are keyed by the
    ids of what they hold: looking a place id up gives a place object
    that carries this id, two different ids never lead to the same
    object, and a registered transition is found under its own id. *)
Theorem tables_keyed_by_ids (calls : list Call) :
  let w := run calls newNet in
  (forall placeId l place,
      getPlace w placeId = Some (l, place) -> Place.id place = placeId) /\
  (forall id1 id2 l place1 place2,
      getPlace w id1 = Some (l, place1) -> getPlace w id2 = Some (l, place2) ->
      id1 = id2) /\
  (forall transitionId transition,
      JsMap.get transitionId (Net.transitions (World.net w)) = Some transition ->
      Transition.id transition = transitionId).
Proof.
  intros w.
  assert (Hw : wellFormed w) by (apply wellFormed_run, wellFormed_newNet).
  destruct Hw as (Hp & _ & Ht & _).
  assert (Hid : forall placeId l place,
             getPlace w placeId = Some (l, place) -> Place.id place = placeId).
  { intros placeId l place Hg. pose proof (getPlace_heap _ _ _ _ Hg) as El.
    unfold getPlace in Hg. destruct (JsMap.get placeId _) as [l0|] eqn:E; [|discriminate].
    destruct (World.heap w !! l0); [|discriminate]. injection Hg as -> _.
    destruct (Hp _ _ (JsMap_get_In _ _ _ E)) as (p & El' & Hid).
    rewrite El in El'. injection El' as <-. exact Hid. }
  split; [exact Hid|]. split.
  - intros id1 id2 l place1 place2 H1 H2.
    pose proof (getPlace_heap _ _ _ _ H1) as E1.
    pose proof (getPlace_heap _ _ _ _ H2) as E2.
    rewrite E1 in E2. injection E2 as <-.
    rewrite <- (Hid _ _ _ H1). exact (Hid _ _ _ H2).
  - intros transitionId transition Hg. apply Ht. now apply JsMap_get_In.
Qed.

Lemma tables_keyed_by_ids_witness :
  Place.id (Examples.place "file_read") = "file_read".
Proof.
  destruct (tables_keyed_by_ids
              [CallAddPlace (Examples.place "start");
               CallAddPlace (Examples.place "file_read")]) as (H & _).
  exact (H "file_read" 1 (Examples.place "file_read") eq_refl).
Defined.

(** ** Counting the bindings found *)

Lemma product_length {A} (ls : list (list A)) :
  length (product ls) = fold_right Nat.mul 1 (map (@length A) ls).
Proof.
  induction ls as [|l ls IH]; simpl; [reflexivity|].
  rewrite <- IH. generalize (product ls). intros ps.
  induction l as [|x l IHl]; simpl; [reflexivity|].
  rewrite length_app, length_map, IHl. reflexivity.
Qed.

Lemma positions_length (arc : Arc.t) (l : loc) (tokens : list Token.t) :
  forall i, length (positions arc l tokens i) = matching arc tokens.
Proof.
  unfold matching. induction tokens as [|t ts IH]; intros i; simpl; [reflexivity|].
  destruct (matches arc t); simpl; now rewrite IH.
Qed.

Lemma candidates_length (w : World.t) (arc : Arc.t) :
  length (candidates w arc) = offered w arc.
Proof.
  unfold candidates, offered.
  destruct (getPlace w (Arc.source arc)) as [[l place]|]; [|reflexivity].
  apply positions_length.
Qed.

Lemma findValidBindings_length (w : World.t) (inputArcs : list Arc.t) :
  length (findValidBindings w inputArcs)
  = fold_right Nat.mul 1 (map (offered w) inputArcs).
Proof.
  rewrite findValidBindingsTraced_erase, length_map.
  assert (H : map snd (findValidBindingsTraced w inputArcs)
              = product (map (candidates w) inputArcs)).
  { unfold findValidBindingsTraced. destruct inputArcs as [|arc rest]; [reflexivity|].
    rewrite checkBindingTraced_choices.
    generalize (product (map (candidates w) (arc :: rest))). intros ps.
    change (map snd [] ++ map (app []) ps) with (map (fun x : list Choice.t => x) ps).
    apply map_id. }
  rewrite <- (length_map snd), H, product_length, map_map.
  f_equal. apply map_ext. intros arc. apply candidates_length.
Qed.

Lemma product_positive (ns : list nat) :
  0 < fold_right Nat.mul 1 ns <-> Forall (lt 0) ns.
Proof.
  induction ns as [|n ns IH]; simpl.
  - split; [constructor | lia].
  - rewrite Forall_cons, <- IH. nia.
Qed.

Lemma findValidBindings_nonempty (w : World.t) (inputArcs : list Arc.t) :
  findValidBindings w inputArcs <> [] <->
  forall arc, In arc inputArcs ->
    exists l place token,
      getPlace w (Arc.source arc) = Some (l, place) /\
      In token (Place.tokens place) /\ matches arc token = true.
Proof.
  assert (Hpos : findValidBindings w inputArcs <> []
                 <-> Forall (lt 0) (map (offered w) inputArcs)).
  { rewrite <- product_positive, <- findValidBindings_length.
    destruct (findValidBindings w inputArcs); simpl; split; intros; try lia; congruence. }
  rewrite Hpos, Forall_forall. split.
  - intros H arc Hin.
    assert (Ho : 0 < offered w arc).
    { apply H. apply list_elem_of_In, in_map. exact Hin. }
    unfold offered, matching in Ho.
    destruct (getPlace w (Arc.source arc)) as [[l place]|]; [|lia].
    destruct (List.filter (matches arc) (Place.tokens place)) as [|t ts] eqn:E;
      [simpl in Ho; lia|].
    assert (Ht : In t (List.filter (matches arc) (Place.tokens place)))
      by (rewrite E; now left).
    apply filter_In in Ht. destruct Ht. eauto 6.
  - intros H n Hn. apply list_elem_of_In, in_map_iff in Hn.
    destruct Hn as (arc & <- & Hin).
    destruct (H arc Hin) as (l & place & token & Hg & Ht & Hm).
    unfold offered, matching. rewrite Hg.
    assert (Hf : In token (List.filter (matches arc) (Place.tokens place)))
      by (apply filter_In; auto).
    destruct (List.filter (matches arc) (Place.tokens place)); [destruct Hf | simpl; lia].
Qed.

(** X4.  The search finds as many bindings as there are ways to pick,
    for each input arc, one token that its source place offers to it
    (the product of these numbers; 1 for a transition without input
    arcs).  So it finds a binding if and only if every input arc is
    offered at least one token; the weights of the arcs play no role. *)
Theorem binding_count (w : World.t) (inputArcs : list Arc.t) :
  length (findValidBindings w inputArcs)
    = fold_right Nat.mul 1 (map (offered w) inputArcs) /\
  (findValidBindings w inputArcs <> [] <->
   forall arc, In arc inputArcs ->
     exists l place token,
       getPlace w (Arc.source arc) = Some (l, place) /\
       In token (Place.tokens place) /\ matches arc token = true).
Proof.
  split; [apply findValidBindings_length | apply findValidBindings_nonempty].
Qed.

Lemma binding_count_witness :
  findValidBindings Examples.guardedNet (getInputArcs Examples.guardedNet "t") <> [] /\
  length (findValidBindings Examples.guardedNet (getInputArcs Examples.guardedNet "t")) = 2.
Proof.
  destruct (binding_count Examples.guardedNet (getInputArcs Examples.guardedNet "t"))
    as (Hlen & Hne).
  split; [|rewrite Hlen; reflexivity].
  apply Hne. intros arc [<-|[]].
  exists 0, (Place.mk "p" "p" None
               [Token.mk "token-1" (VNum 1) "p"; Token.mk "token-2" (VNum 2) "p"]),
         (Token.mk "token-1" (VNum 1) "p").
  repeat split. now left.
Defined.

(** ** Which tokens a firing takes *)

Lemma takeOut_0 (arc : Arc.t) (tokens : list Token.t) : takeOut 0 arc tokens = tokens.
Proof.
  induction tokens as [|t ts IH]; simpl; [reflexivity|].
  destruct (matches arc t); [reflexivity | now rewrite IH].
Qed.

Lemma removeFirst_cons (arc : Arc.t) (t : Token.t) (ts : list Token.t) :
  removeFirst arc (t :: ts)
  = if matches arc t then ts else t :: removeFirst arc ts.
Proof.
  unfold removeFirst. simpl. destruct (matches arc t); [reflexivity|].
  destruct (findIndex (matches arc) ts); reflexivity.
Qed.

Lemma takeOut_removeFirst (arc : Arc.t) (n : nat) (tokens : list Token.t) :
  takeOut n arc (removeFirst arc tokens) = takeOut (S n) arc tokens.
Proof.
  induction tokens as [|t ts IH]; [reflexivity|].
  rewrite removeFirst_cons. simpl. destruct (matches arc t) eqn:E; [reflexivity|].
  simpl. now rewrite E, IH.
Qed.

Lemma iter_removeFirst_takeOut (arc : Arc.t) (n : nat) :
  forall tokens, Nat.iter n (removeFirst arc) tokens = takeOut n arc tokens.
Proof.
  induction n as [|n IH]; intros tokens.
  - simpl. now rewrite takeOut_0.
  - assert (Hswap : forall k ts, Nat.iter k (removeFirst arc) (removeFirst arc ts)
                                 = removeFirst arc (Nat.iter k (removeFirst arc) ts)).
    { induction k; intros ts; simpl; [reflexivity | now rewrite IHk]. }
    change (Nat.iter (S n) (removeFirst arc) tokens)
      with (removeFirst arc (Nat.iter n (removeFirst arc) tokens)).
    rewrite <- Hswap, IH. apply takeOut_removeFirst.
Qed.

(** X5.  The removal loop of an input arc takes out the earliest tokens
    that the arc accepts, as many as its weight says or as many as there
    are, and leaves all other tokens of the place in their order; no
    other place object is touched.  With the default weight this is the
    earliest-inserted matching token. *)
Theorem consumption_is_fifo (w : World.t) (arc : Arc.t) (l : loc) (place : Place.t) :
  getPlace w (Arc.source arc) = Some (l, place) ->
  consumeArc arc w
    = (Return tt,
       setHeap (<[l := Place.with_tokens place
                         (takeOut (tokenCount arc) arc (Place.tokens place))]>
                  (World.heap w)) w) /\
  (forall before token after,
      Place.tokens place = before ++ token :: after ->
      matches arc token = true ->
      (forall t, In t before -> matches arc t = false) ->
      takeOut 1 arc (Place.tokens place) = before ++ after).
Proof.
  intros Hg. split.
  - unfold consumeArc. rewrite Hg.
    rewrite (repeat_removeMatching_spec l arc (tokenCount arc) w place
               (getPlace_heap _ _ _ _ Hg)).
    now rewrite iter_removeFirst_takeOut.
  - intros before token after -> Hm Hno.
    induction before as [|b before IH]; simpl.
    + rewrite Hm. apply takeOut_0.
    + rewrite (Hno b (or_introl eq_refl)). f_equal. apply IH.
      intros t Ht. apply Hno. now right.
Qed.

Lemma consumption_is_fifo_witness :
  consumeArc (Examples.arc "a1" "p" "t") Examples.guardedNet
    = (Return tt,
       setHeap [Place.mk "p" "p" None [Token.mk "token-2" (VNum 2) "p"]]
               Examples.guardedNet).
Proof.
  destruct (consumption_is_fifo Examples.guardedNet (Examples.arc "a1" "p" "t") 0
              (Place.mk "p" "p" None
                 [Token.mk "token-1" (VNum 1) "p"; Token.mk "token-2" (VNum 2) "p"])
              eq_refl) as (H & _).
  exact H.
Defined.

(** ** The binding that a firing uses *)

Lemma flat_map_nil {A B} (f : A -> list B) (l : list A) :
  (forall x, f x = []) -> flat_map f l = [].
Proof. intros H. induction l; simpl; [reflexivity | now rewrite H]. Qed.

Lemma product_head {A} (ls : list (list A)) :
  forall x xs, product ls = x :: xs ->
  Forall2 (fun l c => exists r, l = c :: r) ls x.
Proof.
  induction ls as [|l ls IH]; intros x xs; simpl.
  - intros [= <- _]. constructor.
  - destruct l as [|a r]; [discriminate|]. simpl.
    destruct (product ls) as [|y ys] eqn:E.
    + simpl. rewrite flat_map_nil by reflexivity. discriminate.
    + simpl. intros [= <- _]. constructor; [eauto | eapply IH; reflexivity].
Qed.

Lemma positions_head (arc : Arc.t) (l : loc) (tokens : list Token.t) :
  forall i c r,
    positions arc l tokens i = c :: r ->
    exists before after,
      tokens = before ++ Choice.token c :: after /\
      Choice.object c = l /\ Choice.index c = i + length before /\
      matches arc (Choice.token c) = true /\
      forall t, In t before -> matches arc t = false.
Proof.
  induction tokens as [|t ts IH]; intros i c r; simpl; [discriminate|].
  destruct (matches arc t) eqn:E.
  - intros [= <- _]. exists [], ts. simpl. repeat split; auto. intros ? [].
  - intros H. destruct (IH _ _ _ H) as (before & after & -> & Ho & Hi & Hm & Hno).
    exists (t :: before), after. simpl. repeat split; auto; [lia|].
    intros x [<-|Hx]; auto.
Qed.

Lemma traced_binding_reads (w : World.t) (inputArcs : list Arc.t)
    (binding : Binding) (choices : list Choice.t) :
  In (binding, choices) (findValidBindingsTraced w inputArcs) ->
  forall key, JsMap.get key binding = JsMap.get key (assign inputArcs choices []).
Proof.
  intros Hin. unfold findValidBindingsTraced in Hin.
  destruct inputArcs as [|arc rest].
  - destruct Hin as [[= <- <-]|[]]. reflexivity.
  - destruct (checkBindingTraced_bindings w (arc :: rest) [] [] [])
      as (_ & new & Hout & Hem).
    rewrite Hout in Hin. simpl in Hin.
    rewrite Forall_forall in Hem. apply list_elem_of_In in Hin.
    destruct (Hem _ Hin) as (cs & Hc & _ & Hget). simpl in Hc. subst cs.
    exact Hget.
Qed.

Lemma traced_choices_product (w : World.t) (inputArcs : list Arc.t) :
  map snd (findValidBindingsTraced w inputArcs) = product (map (candidates w) inputArcs).
Proof.
  unfold findValidBindingsTraced. destruct inputArcs as [|arc rest]; [reflexivity|].
  rewrite checkBindingTraced_choices.
  generalize (product (map (candidates w) (arc :: rest))). intros ps.
  change (map snd [] ++ map (app []) ps) with (map (fun x : list Choice.t => x) ps).
  apply map_id.
Qed.

(** X6.  The binding that a firing without supplied binding uses (the
    first one found) gives to every input arc the earliest token that
    its source place offers to it: it reads as the result of assigning,
    arc after arc, the color of that token to the arc's variable. *)
Theorem first_binding_takes_earliest_tokens (w : World.t) (inputArcs : list Arc.t)
    (first : Binding) (others : list Binding) :
  findValidBindings w inputArcs = first :: others ->
  exists choices,
    Forall2 (earliest w) inputArcs choices /\
    forall key, JsMap.get key first = JsMap.get key (assign inputArcs choices []).
Proof.
  intros Hf. rewrite findValidBindingsTraced_erase in Hf.
  destruct (findValidBindingsTraced w inputArcs) as [|[b cs] traced] eqn:Et;
    [discriminate|].
  simpl in Hf. injection Hf as <- _.
  pose proof (traced_choices_product w inputArcs) as Hp. rewrite Et in Hp. simpl in Hp.
  symmetry in Hp. apply product_head in Hp.
  exists cs. split.
  - clear -Hp. remember (map (candidates w) inputArcs) as ls eqn:El.
    revert inputArcs El. induction Hp as [|l c ls cs (r & Hl) _ IH]; intros arcs El.
    + destruct arcs; [constructor | discriminate].
    + destruct arcs as [|arc arcs]; [discriminate|]. simpl in El.
      injection El as El1 El2. constructor; [|now apply IH].
      subst l. unfold candidates in El1.
      destruct (getPlace w (Arc.source arc)) as [[l0 place]|] eqn:Hg; [|discriminate].
      symmetry in El1.
      destruct (positions_head _ _ _ _ _ _ El1)
        as (before & after & Ht & Ho & Hi & Hm & Hno).
      exists place, before, after. rewrite Ho. auto.
  - apply (traced_binding_reads w). rewrite Et. now left.
Qed.

Lemma first_binding_takes_earliest_tokens_witness :
  exists choices,
    Forall2 (earliest Examples.guardedNet)
            (getInputArcs Examples.guardedNet "t") choices /\
    forall key,
      JsMap.get key [("p_token", VNum 1)]
      = JsMap.get key (assign (getInputArcs Examples.guardedNet "t") choices []).
Proof.
  apply (first_binding_takes_earliest_tokens Examples.guardedNet
           (getInputArcs Examples.guardedNet "t")
           [("p_token", VNum 1)] [[("p_token", VNum 2)]]).
  reflexivity.
Defined.

(** ** Token accounting *)























(** ** The hints *)

Lemma insertSorted_Permutation {A} (cmp : A -> A -> Float64.float) (x : A) (l : list A) :
  insertSorted cmp x l ≡ₚ x :: l.
Proof.
  induction l as [|y l IH]; simpl; [reflexivity|].
  destruct (Float64.gtb _ _); [reflexivity|].
  rewrite IH. apply Permutation_swap.
Qed.

Lemma Array_sort_Permutation {A} (cmp : A -> A -> Float64.float) (xs : list A) :
  Array_sort cmp xs ≡ₚ xs.
Proof.
  unfold Array_sort.
  assert (H : forall acc,
             fold_left (fun sorted x => insertSorted cmp x sorted) xs acc ≡ₚ xs ++ acc).
  { induction xs as [|x xs IH]; intros acc; simpl; [reflexivity|].
    rewrite IH, insertSorted_Permutation. symmetry. apply Permutation_middle. }
  rewrite H. now rewrite app_nil_r.
Qed.

(** X8.  [getEnabledTransitions] returns, in some order, exactly one
    hint per pair of a registered transition and a binding found for it
    that its guard accepts (every binding if it has no guard): nothing
    is dropped or duplicated by the ranking, and a transition is listed
    if and only if such a binding exists. *)
Theorem hints_are_the_accepted_bindings (w : World.t) :
  getEnabledTransitions w
    ≡ₚ flat_map (fun transition =>
                  map (hintFor transition)
                      (List.filter (guardAccepts transition)
                         (findValidBindings w (getInputArcs w (Transition.id transition)))))
               (JsMap.values (Net.transitions (World.net w))) /\
  forall h,
    In h (getEnabledTransitions w) <->
    exists transition binding,
      In transition (JsMap.values (Net.transitions (World.net w))) /\
      In binding (findValidBindings w (getInputArcs w (Transition.id transition))) /\
      guardAccepts transition binding = true /\
      h = hintFor transition binding.
Proof.
  assert (Hf : forall transition,
             hintsOf w transition
             = map (hintFor transition)
                 (List.filter (guardAccepts transition)
                    (findValidBindings w (getInputArcs w (Transition.id transition))))).
  { intros transition. unfold hintsOf. f_equal.
    induction (findValidBindings w _) as [|b bs IH]; [reflexivity|].
    rewrite filter_cons. simpl. destruct (guardAccepts transition b) eqn:E.
    - rewrite decide_True by reflexivity. now rewrite IH.
    - rewrite decide_False by congruence. exact IH. }
  split.
  - unfold getEnabledTransitions. rewrite Array_sort_Permutation.
    induction (JsMap.values _) as [|t ts IH]; simpl; [reflexivity|].
    now rewrite Hf, IH.
  - intros h. split; [apply getEnabledTransitions_In|].
    intros (transition & binding & Ht & Hb & Hg & ->).
    unfold getEnabledTransitions. rewrite Array_sort_In, in_flat_map.
    exists transition. split; [exact Ht|]. rewrite Hf. apply in_map.
    apply filter_In. auto.
Qed.

Lemma hints_are_the_accepted_bindings_witness :
  In Examples.readyHint (getEnabledTransitions Examples.readyNet).
Proof.
  destruct (hints_are_the_accepted_bindings Examples.readyNet) as (_ & H).
  apply H.
  exists (Examples.transition "search_read" "search:file:read"),
         [("search_results_token", VStr "file1.ts")].
  repeat split; left; reflexivity.
Defined.

(** * Properties of the contextual hints *)

(** ** The diagnostic's view of the net *)

Lemma findPlace_snapshot (w : World.t) (placeId : string) :
  wellFormed w ->
  findPlace w (snapshotOf w) placeId = option_map snd (getPlace w placeId).
Proof.
  intros (Hp & _). unfold findPlace, getPlace, snapshotOf. simpl.
  unfold JsMap.values.
  induction (Net.places (World.net w)) as [|[k l] m IH]; [reflexivity|].
  simpl. destruct (Hp k l (or_introl eq_refl)) as (place & El & Hid).
  rewrite El. simpl. rewrite Hid, String.eqb_sym.
  destruct (String.eqb placeId k); [now rewrite El|].
  apply IH. intros k' l' Hin. apply Hp. now right.
Qed.

Lemma findTransition_snapshot (w : World.t) (transitionId : string) :
  wellFormed w ->
  findTransition (snapshotOf w) transitionId
  = JsMap.get transitionId (Net.transitions (World.net w)).
Proof.
  intros (_ & _ & Ht & _). unfold findTransition, snapshotOf. simpl.
  unfold JsMap.values.
  induction (Net.transitions (World.net w)) as [|[k t] m IH]; [reflexivity|].
  simpl. rewrite (Ht k t (or_introl eq_refl)), String.eqb_sym.
  destruct (String.eqb transitionId k); [reflexivity|].
  apply IH. intros k' t' Hin. apply Ht. now right.
Qed.

Lemma checkTransitionEnabled_spec (w : World.t) (transitionId : string) :
  wellFormed w ->
  checkTransitionEnabled w (snapshotOf w) transitionId = true <->
  forall arc, In arc (getInputArcs w transitionId) ->
    exists l place token,
      getPlace w (Arc.source arc) = Some (l, place) /\ In token (Place.tokens place).
Proof.
  intros Hw. unfold checkTransitionEnabled.
  change (arcsInto (snapshotOf w) transitionId) with (getInputArcs w transitionId).
  rewrite forallb_forall. split.
  - intros H arc Hin. specialize (H arc Hin).
    rewrite (findPlace_snapshot w _ Hw) in H.
    destruct (getPlace w (Arc.source arc)) as [[l place]|]; [|discriminate].
    simpl in H. destruct (Place.tokens place) as [|t ts] eqn:E; [discriminate|].
    exists l, place, t. split; [reflexivity|]. rewrite E. now left.
  - intros H arc Hin. destruct (H arc Hin) as (l & place & token & Hg & Ht).
    rewrite (findPlace_snapshot w _ Hw), Hg. simpl.
    destruct (Place.tokens place); [destruct Ht | reflexivity].
Qed.

(** X9.  In a state whose tables are keyed by ids, the diagnostic's
    test [checkTransitionEnabled] holds for every transition for which
    the engine finds a binding; and when no input arc of the transition
    has a pattern, the two agree.  (The diagnostic looks neither at
    patterns nor at guards.) *)
Theorem diagnostic_enabled_when_engine_enabled (w : World.t) (transitionId : string) :
  wellFormed w ->
  (findValidBindings w (getInputArcs w transitionId) <> [] ->
   checkTransitionEnabled w (snapshotOf w) transitionId = true) /\
  ((forall arc, In arc (getInputArcs w transitionId) -> Arc.pattern arc = None) ->
   checkTransitionEnabled w (snapshotOf w) transitionId = true ->
   findValidBindings w (getInputArcs w transitionId) <> []).
Proof.
  intros Hw. split.
  - intros Hne. apply (checkTransitionEnabled_spec w _ Hw).
    intros arc Hin.
    destruct (proj1 (findValidBindings_nonempty w _) Hne arc Hin)
      as (l & place & token & Hg & Ht & _).
    eauto.
  - intros Hnp Hen. apply findValidBindings_nonempty. intros arc Hin.
    destruct (proj1 (checkTransitionEnabled_spec w _ Hw) Hen arc Hin)
      as (l & place & token & Hg & Ht).
    exists l, place, token. repeat split; auto.
    unfold matches. now rewrite (Hnp arc Hin).
Qed.

Lemma diagnostic_enabled_when_engine_enabled_witness :
  checkTransitionEnabled Examples.fileNet (snapshotOf Examples.fileNet) "search_files"
    = true.
Proof.
  destruct (diagnostic_enabled_when_engine_enabled Examples.fileNet "search_files")
    as (H & _).
  - apply wellFormed_run, wellFormed_newNet.
  - apply H. discriminate.
Defined.

(** ** Paths *)

Lemma dedupe_In (path seen : list string) (x : string) :
  In x (dedupe seen path) -> In x path /\ ~ In x seen.
Proof.
  revert seen. induction path as [|y path IH]; intros seen; simpl; [intros []|].
  destruct (existsb (String.eqb y) seen) eqn:E.
  - intros H. destruct (IH _ H). auto.
  - intros [<-|H].
    + split; [now left|]. intros Hin.
      assert (existsb (String.eqb y) seen = true); [|congruence].
      apply existsb_exists. exists y. split; [exact Hin | apply String.eqb_refl].
    + destruct (IH _ H) as [H1 H2]. split; [now right|].
      intros Hin. apply H2. now right.
Qed.

Lemma dedupe_NoDup (path seen : list string) : NoDup (dedupe seen path).
Proof.
  revert seen. induction path as [|y path IH]; intros seen; simpl; [constructor|].
  destruct (existsb (String.eqb y) seen); [apply IH|].
  constructor; [|apply IH].
  intros Hin. apply list_elem_of_In, dedupe_In in Hin. destruct Hin as [_ Hn].
  apply Hn. now left.
Qed.

Lemma findTransition_In (state : Snapshot.t) (id : string) (t : Transition.t) :
  findTransition state id = Some t ->
  In t (Snapshot.transitions state) /\ Transition.id t = id.
Proof.
  unfold findTransition. intros H. apply find_some in H. destruct H as [Hin He].
  split; [exact Hin | now apply String.eqb_eq].
Qed.

Lemma visitArc_names (recur : list string -> option (list string)) w state
    (P : string -> Prop) :
  (forall targets path, recur targets = Some path -> Forall P path) ->
  (forall t, In t (Snapshot.transitions state) -> P (Transition.name t)) ->
  forall arcs acc path,
    (forall p, acc = Some p -> Forall P p) ->
    fold_left (visitArc recur w state) arcs acc = Some path -> Forall P path.
Proof.
  intros Hrec Ht. induction arcs as [|arc arcs IH]; intros acc path Hacc; simpl.
  - intros ->. now apply Hacc.
  - apply IH. intros p. unfold visitArc. destruct acc as [q|]; [|discriminate].
    specialize (Hacc q eq_refl).
    destruct (findTransition state (Arc.source arc)) as [t|] eqn:Ef;
      [|intros [= <-]; exact Hacc].
    apply findTransition_In in Ef. destruct Ef as [Hin _].
    destruct (checkTransitionEnabled w state (Transition.id t)).
    + intros [= <-]. apply Forall_app. split; [exact Hacc|].
      constructor; [now apply Ht | constructor].
    + destruct (recur _) as [prior|] eqn:Er; [|discriminate].
      intros [= <-]. apply Forall_app. split; [exact Hacc|].
      apply Forall_app. split; [eapply Hrec; eassumption|].
      constructor; [now apply Ht | constructor].
Qed.

Lemma visitPlace_names (recur : list string -> option (list string)) w state
    (P : string -> Prop) :
  (forall targets path, recur targets = Some path -> Forall P path) ->
  (forall t, In t (Snapshot.transitions state) -> P (Transition.name t)) ->
  forall places acc path,
    (forall p, acc = Some p -> Forall P p) ->
    fold_left (visitPlace recur w state) places acc = Some path -> Forall P path.
Proof.
  intros Hrec Ht. induction places as [|placeId places IH]; intros acc path Hacc; simpl.
  - intros ->. now apply Hacc.
  - apply IH. intros p Hp. unfold visitPlace in Hp.
    eapply visitArc_names; eassumption.
Qed.

(** X10.  A path that [findPathToFulfill] returns names no transition
    twice and names only transitions of the snapshot; for an empty list
    of target places it is empty. *)
Theorem returned_path_is_well_formed (fuel : nat) (w : World.t) (state : Snapshot.t)
    (targetPlaces path : list string) :
  findPathToFulfill fuel w state targetPlaces = Some path ->
  NoDup path /\
  (forall name, In name path ->
     exists t, In t (Snapshot.transitions state) /\ Transition.name t = name) /\
  (targetPlaces = [] -> path = []).
Proof.
  set (P := fun name : string =>
              exists t, In t (Snapshot.transitions state) /\ Transition.name t = name).
  assert (Hall : forall fuel targets path,
             findPathToFulfill fuel w state targets = Some path -> Forall P path).
  { clear. intros fuel. induction fuel as [|fuel IH]; intros targets path; [discriminate|].
    simpl. destruct (fold_left _ targets (Some [])) as [q|] eqn:E; [|discriminate].
    intros [= <-].
    assert (Hq : Forall P q).
    { eapply (visitPlace_names (findPathToFulfill fuel w state) w state P);
        [exact IH | | | exact E].
      - intros t Hin. exists t. auto.
      - intros p [= <-]. constructor. }
    rewrite Forall_forall in *. intros x Hx.
    apply list_elem_of_In, dedupe_In in Hx. apply Hq, list_elem_of_In, Hx. }
  intros H. split; [|split].
  - destruct fuel; [discriminate|]. simpl in H.
    destruct (fold_left _ targetPlaces (Some [])); [|discriminate].
    injection H as <-. apply dedupe_NoDup.
  - intros name Hin. specialize (Hall _ _ _ H). rewrite Forall_forall in Hall.
    apply Hall, list_elem_of_In, Hin.
  - intros ->. destruct fuel; [discriminate|]. simpl in H. now injection H as <-.
Qed.

Lemma returned_path_is_well_formed_witness :
  NoDup ["search:files"; "search:file:read"].
Proof.
  destruct (returned_path_is_well_formed 2 Examples.fileNet (snapshotOf Examples.fileNet)
              ["file_read"] ["search:files"; "search:file:read"] eq_refl) as (H & _).
  exact H.
Defined.

(** ** Termination of the path search on ranked nets *)

Lemma arcsInto_In (state : Snapshot.t) (nodeId : string) (arc : Arc.t) :
  In arc (arcsInto state nodeId) <->
  In arc (Snapshot.arcs state) /\ Arc.target arc = nodeId.
Proof.
  unfold arcsInto. rewrite <- !list_elem_of_In, list_elem_of_filter.
  rewrite String.eqb_eq. tauto.
Qed.

Lemma visitArc_returns (recur : list string -> option (list string)) w state :
  forall arcs,
    (forall arc transition,
        In arc arcs ->
        findTransition state (Arc.source arc) = Some transition ->
        checkTransitionEnabled w state (Transition.id transition) = false ->
        exists prior, recur (getInputPlaces state (Transition.id transition))
                      = Some prior) ->
    forall path, exists path',
      fold_left (visitArc recur w state) arcs (Some path) = Some path'.
Proof.
  induction arcs as [|arc arcs IH]; intros Hrec path; cbn [fold_left]; [eauto|].
  assert (Hstep : exists p, visitArc recur w state (Some path) arc = Some p).
  { unfold visitArc.
    destruct (findTransition state (Arc.source arc)) as [t|] eqn:Ef; [|eauto].
    destruct (checkTransitionEnabled w state (Transition.id t)) eqn:Ec; [eauto|].
    destruct (Hrec arc t (or_introl eq_refl) Ef Ec) as (prior & ->). eauto. }
  destruct Hstep as (p & ->). apply IH.
  intros a t Hin. apply Hrec. now right.
Qed.

Lemma visitPlace_returns (recur : list string -> option (list string)) w state :
  forall places,
    (forall placeId arc transition,
        In placeId places -> In arc (arcsInto state placeId) ->
        findTransition state (Arc.source arc) = Some transition ->
        checkTransitionEnabled w state (Transition.id transition) = false ->
        exists prior, recur (getInputPlaces state (Transition.id transition))
                      = Some prior) ->
    forall path, exists path',
      fold_left (visitPlace recur w state) places (Some path) = Some path'.
Proof.
  induction places as [|placeId places IH]; intros Hrec path; cbn [fold_left]; [eauto|].
  destruct (visitArc_returns recur w state (arcsInto state placeId)
              (fun arc t Hin => Hrec placeId arc t (or_introl eq_refl) Hin) path)
    as (p & Hp).
  change (visitPlace recur w state (Some path) placeId) with (fold_left (visitArc recur w state) (arcsInto state placeId) (Some path)). rewrite Hp. apply IH.
  intros q a t Hin. apply Hrec. now right.
Qed.

(** X11.  On a ranked net the path search returns: when the input places
    of every not-enabled producer rank strictly below the place it
    produces into, a call of [findPathToFulfill] whose target places
    rank at most [fuel] needs no more than [fuel + 1] nested calls. *)
Theorem path_discovery_returns_on_ranked_nets (w : World.t) (state : Snapshot.t)
    (rank : string -> nat) (fuel : nat) (targetPlaces : list string) :
  ranked w state rank ->
  (forall placeId, In placeId targetPlaces -> rank placeId <= fuel) ->
  exists path, findPathToFulfill (S fuel) w state targetPlaces = Some path.
Proof.
  intros Hrank. revert targetPlaces.
  induction fuel as [|fuel IH]; intros targets Hle.
  - simpl.
    destruct (visitPlace_returns (fun _ => None) w state targets) with (path := @nil string)
      as (p & Hp).
    + intros placeId arc t Hin Harc Hf Hc. exfalso.
      apply arcsInto_In in Harc. destruct Harc as [Harc Htgt].
      assert (Hex : exists consumed, In consumed (arcsInto state (Transition.id t))).
      { unfold checkTransitionEnabled in Hc.
        destruct (arcsInto state (Transition.id t)) as [|a l]; [discriminate|].
        exists a. now left. }
      destruct Hex as (consumed & Hcons).
      pose proof (Hrank arc consumed t Harc Hf Hc Hcons) as Hlt.
      rewrite Htgt in Hlt. specialize (Hle placeId Hin). lia.
    + rewrite Hp. simpl. eauto.
  - change (findPathToFulfill (S (S fuel)) w state targets)
      with (option_map (dedupe [])
              (fold_left (visitPlace (findPathToFulfill (S fuel) w state) w state)
                 targets (Some []))).
    destruct (visitPlace_returns (findPathToFulfill (S fuel) w state) w state targets)
      with (path := @nil string) as (p & Hp).
    + intros placeId arc t Hin Harc Hf Hc.
      apply arcsInto_In in Harc. destruct Harc as [Harc Htgt].
      apply IH. intros q Hq. unfold getInputPlaces in Hq.
      apply in_map_iff in Hq. destruct Hq as (consumed & <- & Hcons).
      pose proof (Hrank arc consumed t Harc Hf Hc Hcons) as Hlt.
      rewrite Htgt in Hlt. specialize (Hle placeId Hin). lia.
    + rewrite Hp. simpl. eauto.
Qed.

Lemma fileNet_ranked : ranked Examples.fileNet (snapshotOf Examples.fileNet) fileRank.
Proof.
  intros produced consumed t Hin Hf Hc Hcons.
  vm_compute in Hin.
  repeat (destruct Hin as [<-|Hin]); try destruct Hin;
    vm_compute in Hf; try discriminate; injection Hf as <-;
    vm_compute in Hc; try discriminate;
    vm_compute in Hcons;
    repeat (destruct Hcons as [<-|Hcons]); try destruct Hcons;
    vm_compute; lia.
Qed.

Lemma path_discovery_returns_on_ranked_nets_witness :
  exists path,
    findPathToFulfill 3 Examples.fileNet (snapshotOf Examples.fileNet) ["file_read"]
    = Some path.
Proof.
  apply (path_discovery_returns_on_ranked_nets Examples.fileNet
           (snapshotOf Examples.fileNet) fileRank 2 ["file_read"]).
  - exact fileNet_ranked.
  - intros placeId [<-|[]]. vm_compute. lia.
Defined.

(** ** The patched firing *)

Lemma flat_map_nil_In {A B} (f : A -> list B) (l : list A) :
  (forall x, In x l -> f x = []) -> flat_map f l = [].
Proof.
  induction l as [|x l IH]; intros H; simpl; [reflexivity|].
  rewrite (H x (or_introl eq_refl)), IH; [reflexivity|].
  intros y Hy. apply H. now right.
Qed.

Lemma generateContextualHint_ready (fuel : nat) (w : World.t) (transitionId : string)
    (transition : Transition.t) :
  wellFormed w ->
  JsMap.get transitionId (Net.transitions (World.net w)) = Some transition ->
  findValidBindings w (getInputArcs w transitionId) <> [] ->
  generateContextualHint (S fuel) w transitionId
  = Some (ContextualHint.mk [] []
            (Transition.name transition ++ " is ready to execute")%string).
Proof.
  intros Hw Ht Hne. unfold generateContextualHint. cbv zeta.
  rewrite (findTransition_snapshot w _ Hw), Ht.
  change (arcsInto (snapshotOf w) transitionId) with (getInputArcs w transitionId).
  match goal with
  | |- context [flat_map ?f ?l] => assert (Hm : flat_map f l = [])
  end.
  { apply flat_map_nil_In. intros arc Hin.
    destruct (proj1 (findValidBindings_nonempty w _) Hne arc Hin)
      as (l & place & token & Hg & Htok & _).
    rewrite (findPlace_snapshot w _ Hw), Hg. simpl.
    destruct (Place.tokens place); [destruct Htok | reflexivity]. }
  rewrite Hm. reflexivity.
Qed.

(** X12.  With the contextual hints installed, a transition for which
    the engine finds bindings but whose guard rejects the first of them
    fails with [TransitionNotEnabledError] and the message
    [<name> is ready to execute]: the hint looks only for empty input
    places and finds none.  The state is unchanged and the error still
    carries the engine's list of enabled transitions. *)
Theorem guard_rejection_reads_ready (fuel : nat) (w : World.t) (transitionId : string)
    (transition : Transition.t) (first : Binding) (others : list Binding) :
  wellFormed w ->
  JsMap.get transitionId (Net.transitions (World.net w)) = Some transition ->
  findValidBindings w (getInputArcs w transitionId) = first :: others ->
  guardAccepts transition first = false ->
  patchedFireTransition (S fuel) transitionId None w
  = Some (Throw (TransitionNotEnabledError
                   (Transition.name transition ++ " is ready to execute")%string
                   (Transition.name transition)
                   (getEnabledTransitions w)), w).
Proof.
  intros Hw Ht Hb Hg.
  unfold patchedFireTransition, fireTransition, candidateBindings.
  rewrite Ht. cbv zeta. rewrite Hb, Hg. cbn [negb].
  rewrite (generateContextualHint_ready fuel w transitionId transition Hw Ht);
    [reflexivity|].
  rewrite Hb. discriminate.
Qed.

Lemma guard_rejection_reads_ready_witness :
  patchedFireTransition 1 "t" None Examples.guardedNet
  = Some (Throw (TransitionNotEnabledError
                   "pick:two is ready to execute" "pick:two"
                   (getEnabledTransitions Examples.guardedNet)), Examples.guardedNet).
Proof.
  apply (guard_rejection_reads_ready 0 Examples.guardedNet "t" Examples.picky
           [("p_token", VNum 1)] [[("p_token", VNum 2)]]).
  - apply wellFormed_run, wellFormed_newNet.
  - reflexivity.
  - reflexivity.
  - reflexivity.
Defined.

(** * Properties of the server's tool table *)

Lemma convertToMcpName_no_colon (s : string) :
  ~ In ":"%char (list_ascii_of_string (convertToMcpName s)).
Proof.
  induction s as [|c s IH]; simpl; [tauto|].
  intros [H|H]; [|tauto].
  destruct (Ascii.eqb c ":") eqn:E; [discriminate|].
  subst c. now rewrite Ascii.eqb_refl in E.
Qed.

(** X13.  [convertToMcpName] keeps the length of a name, leaves no colon
    in it, changes nothing when applied again, and leaves a name as it
    is exactly when the name has no colon. *)
Theorem convertToMcpName_spec (s : string) :
  String.length (convertToMcpName s) = String.length s /\
  ~ In ":"%char (list_ascii_of_string (convertToMcpName s)) /\
  convertToMcpName (convertToMcpName s) = convertToMcpName s /\
  (convertToMcpName s = s <-> ~ In ":"%char (list_ascii_of_string s)).
Proof.
  split; [|split; [apply convertToMcpName_no_colon|split]].
  - induction s as [|c s IH]; simpl; congruence.
  - induction s as [|c s IH]; simpl; [reflexivity|]. rewrite IH.
    destruct (Ascii.eqb c ":") eqn:E; [reflexivity | now rewrite E].
  - split.
    + intros <-. apply convertToMcpName_no_colon.
    + induction s as [|c s IH]; simpl; [reflexivity|]. intros H.
      destruct (Ascii.eqb c ":") eqn:E.
      * apply Ascii.eqb_eq in E. subst c. exfalso. apply H. now left.
      * rewrite IH; [reflexivity|]. intros Hin. apply H. now right.
Qed.

Lemma find_last {A} (f : A -> bool) (l : list A) (x : A) :
  List.find f (l ++ [x])
  = match List.find f l with
    | Some y => Some y
    | None => if f x then Some x else None
    end.
Proof.
  induction l as [|y l IH]; simpl; [reflexivity|].
  destruct (f y); [reflexivity | exact IH].
Qed.

Lemma toolsMap_fold_get (name : string) (transitions : list Transition.t) :
  forall toolsMap,
    JsMap.get name
      (fold_left
         (fun toolsMap transition =>
            JsMap.set (convertToMcpName (Transition.name transition))
                      (toolOf transition) toolsMap)
         transitions toolsMap)
    = match List.find
              (fun t => String.eqb (convertToMcpName (Transition.name t)) name)
              (rev transitions) with
      | Some t => Some (toolOf t)
      | None => JsMap.get name toolsMap
      end.
Proof.
  induction transitions as [|t ts IH]; intros m; [reflexivity|].
  cbn [fold_left rev]. rewrite IH, find_last.
  destruct (List.find _ (rev ts)) as [t'|]; [reflexivity|].
  destruct (String.eqb (convertToMcpName (Transition.name t)) name) eqn:E.
  - apply String.eqb_eq in E. subst name. apply JsMap_get_set_eq.
  - apply JsMap_get_set_ne. intros Heq. rewrite Heq, String.eqb_refl in E. discriminate.
Qed.

Lemma JsMap_set_length {V} (k : string) (v : V) m :
  length (JsMap.set k v m) <= S (length m).
Proof.
  induction m as [|[k' v'] m IH]; simpl; [lia|].
  destruct (String.eqb k k'); simpl; lia.
Qed.

(** X14.  In the tool table a name finds the tool of the last transition
    (in the snapshot's order) whose converted name it is; transitions
    whose names differ only in colons and underscores therefore share
    one entry.  The name [get_next_actions] always finds the
    next-actions tool, whatever the transitions are called.  The table
    has at most one entry more than there are transitions. *)
Theorem tool_table_lookup (state : Snapshot.t) (name : string) :
  JsMap.get name (initializeTools state)
  = (if String.eqb name "get_next_actions" then Some nextActionsTool
     else option_map toolOf
            (List.find
               (fun t => String.eqb (convertToMcpName (Transition.name t)) name)
               (rev (Snapshot.transitions state)))) /\
  length (initializeTools state) <= S (length (Snapshot.transitions state)).
Proof.
  unfold initializeTools. split.
  - destruct (String.eqb name "get_next_actions") eqn:E.
    + apply String.eqb_eq in E. subst name. apply JsMap_get_set_eq.
    + rewrite JsMap_get_set_ne
        by (intros <-; now rewrite String.eqb_refl in E).
      rewrite toolsMap_fold_get.
      destruct (List.find _ (rev (Snapshot.transitions state))); reflexivity.
  - etransitivity; [apply JsMap_set_length|]. apply le_n_S.
    assert (H : forall ts (m : list (string * PetriNetTool.t)),
               length (fold_left
                         (fun toolsMap transition =>
                            JsMap.set (convertToMcpName (Transition.name transition))
                                      (toolOf transition) toolsMap) ts m)
               <= length m + length ts).
    { induction ts as [|t ts IH]; intros m; simpl; [lia|].
      etransitivity; [apply IH|].
      pose proof (JsMap_set_length (convertToMcpName (Transition.name t)) (toolOf t) m).
      lia. }
    apply (H _ []).
Qed.

(** * Properties of the workflow logger's sessions *)

Lemma withinWindow_earlier (timeout now later : Z) (entry : string * SessionInfo.t) :
  (now <= later)%Z ->
  withinWindow timeout later entry = true -> withinWindow timeout now entry = true.
Proof. unfold withinWindow. rewrite !Z.ltb_lt. lia. Qed.

Lemma live_earlier (timeout now later : Z) (sessions : list (string * SessionInfo.t)) :
  (now <= later)%Z ->
  length (List.filter (withinWindow timeout later) sessions)
  <= length (List.filter (withinWindow timeout now) sessions).
Proof.
  intros Hle. induction sessions as [|e l IH]; simpl; [lia|].
  destruct (withinWindow timeout later e) eqn:E.
  - rewrite (withinWindow_earlier _ _ _ _ Hle E). simpl. lia.
  - destruct (withinWindow timeout now e); simpl; lia.
Qed.

Lemma findIndex_None_filter {A} (f : A -> bool) (l : list A) :
  findIndex f l = None -> List.filter f l = [].
Proof.
  induction l as [|x l IH]; simpl; [reflexivity|].
  destruct (f x); [discriminate|].
  destruct (findIndex f l); [discriminate|]. intros _. now apply IH.
Qed.

Lemma findIndex_Some_lt {A} (f : A -> bool) (l : list A) :
  forall i, findIndex f l = Some i -> i < length l.
Proof.
  induction l as [|x l IH]; intros i; simpl; [discriminate|].
  destruct (f x); [intros [= <-]; lia|].
  destruct (findIndex f l) as [j|]; [|discriminate].
  intros [= <-]. specialize (IH j eq_refl). lia.
Qed.

Lemma filter_alter_found {A} (f : A -> bool) (g : A -> A) (l : list A) :
  forall i, findIndex f l = Some i ->
  length (List.filter f (alter g i l)) <= length (List.filter f l).
Proof.
  induction l as [|x l IH]; intros i; simpl; [discriminate|].
  destruct (f x) eqn:E.
  - intros [= <-]. simpl. destruct (f (g x)); simpl; lia.
  - destruct (findIndex f l) as [j|]; [|discriminate].
    intros [= <-]. simpl. rewrite E. now apply IH.
Qed.

Lemma filter_alter_length {A} (f : A -> bool) (g : A -> A) (l : list A) :
  (forall x, f (g x) = f x) ->
  forall i, length (List.filter f (alter g i l)) = length (List.filter f l).
Proof.
  intros Hg. induction l as [|x l IH]; intros i; [reflexivity|].
  destruct i as [|i]; simpl.
  - rewrite Hg. destruct (f x); reflexivity.
  - specialize (IH i). destruct (f x); simpl; [f_equal|]; exact IH.
Qed.

Lemma filter_set_length {V} (f : string * V -> bool) (k : string) (v : V) m :
  List.filter f m = [] -> length (List.filter f (JsMap.set k v m)) <= 1.
Proof.
  induction m as [|[k' v'] m IH]; simpl.
  - intros _. destruct (f (k, v)); simpl; lia.
  - destruct (f (k', v')) eqn:E; [discriminate|]. intros H.
    destruct (String.eqb k k'); simpl.
    + rewrite H. destruct (f (k, v)); simpl; lia.
    + rewrite E. now apply IH.
Qed.

Lemma filter_filter_length {A} (f g : A -> bool) (l : list A) :
  length (List.filter f (List.filter g l)) <= length (List.filter f l).
Proof.
  induction l as [|x l IH]; simpl; [lia|].
  destruct (g x); simpl; destruct (f x); simpl; lia.
Qed.

Lemma liveSessions_step (lg : WorkflowLogger.t) (c : LoggerCall) (before : Z) :
  (before <= callTime c)%Z ->
  liveSessions before lg <= 1 ->
  liveSessions (callTime c) (loggerStep lg c) <= 1.
Proof.
  intros Hle Hone.
  assert (Hnow : liveSessions (callTime c) lg <= 1).
  { etransitivity; [|exact Hone]. now apply live_earlier. }
  clear Hone Hle. unfold liveSessions in *.
  destruct c as [now newId contextHint | now]; simpl in *.
  - unfold logToolCall. destruct (WorkflowLogger.enabled lg); simpl; [|exact Hnow].
    unfold getOrCreateSession.
    destruct (findIndex (withinWindow (timeoutMs lg) now) (WorkflowLogger.activeSessions lg))
      as [i|] eqn:E; simpl.
    + change (timeoutMs (setSessions _ (setSessions _ lg))) with (timeoutMs lg).
      rewrite filter_alter_length by (intros [k s]; reflexivity).
      etransitivity; [apply filter_alter_found; exact E | exact Hnow].
    + change (timeoutMs (setSessions _ (setSessions _ lg))) with (timeoutMs lg).
      rewrite filter_alter_length by (intros [k s]; reflexivity).
      apply filter_set_length, findIndex_None_filter, E.
  - unfold cleanupTick. destruct (WorkflowLogger.enabled lg); simpl; [|exact Hnow].
    change (timeoutMs (setSessions _ lg)) with (timeoutMs lg).
    etransitivity; [apply filter_filter_length | exact Hnow].
Qed.

Lemma liveSessions_run (calls : list LoggerCall) :
  forall lg before now,
    liveSessions before lg <= 1 ->
    Sorted Z.le (before :: map callTime calls ++ [now]) ->
    liveSessions now (runLogger calls lg) <= 1.
Proof.
  induction calls as [|c calls IH]; intros lg before now Hone Hs; simpl in *.
  - inversion Hs as [|? ? _ Hd]; subst. inversion Hd; subst.
    etransitivity; [|exact Hone]. now apply live_earlier.
  - inversion Hs as [|? ? Hs' Hd]; subst. inversion Hd; subst.
    apply (IH _ (callTime c)); [|exact Hs'].
    now apply (liveSessions_step lg c before).
Qed.

(** X15.  The logger has one session at a time.  When the clock never
    goes back, then after any calls of [logToolCall] and runs of the
    clean-up on a new logger at most one session is within the timeout
    window, at the time of the last call and at any later time: a tool
    call joins the session that is within the window, whatever its
    context hint says, and a session is created only when none is. *)
Theorem one_session_at_a_time (sessionTimeoutMinutes : option Z) (enabled : option bool)
    (calls : list LoggerCall) (now : Z) :
  Sorted Z.le (map callTime calls ++ [now]) ->
  liveSessions now (runLogger calls (newWorkflowLogger sessionTimeoutMinutes enabled)) <= 1.
Proof.
  intros Hs. destruct calls as [|c calls]; [cbv [runLogger fold_left liveSessions newWorkflowLogger WorkflowLogger.activeSessions List.filter length]; lia|].
  apply (liveSessions_run (c :: calls) _ (callTime c)).
  - unfold liveSessions. simpl. lia.
  - constructor; [exact Hs|]. constructor. simpl. lia.
Qed.

Lemma one_session_at_a_time_witness :
  liveSessions 800000
    (runLogger [LogToolCall 0 "s1" None;
                LogToolCall 700000 "s2" (Some "another user");
                CleanupTick 800000]
               (newWorkflowLogger None None)) <= 1.
Proof.
  apply (one_session_at_a_time None None
           [LogToolCall 0 "s1" None; LogToolCall 700000 "s2" (Some "another user");
            CleanupTick 800000] 800000).
  simpl. repeat constructor; lia.
Defined.

(** ** Counting tool calls *)

Lemma fold_left_sum {A} (g : A -> nat) (l : list A) :
  forall a, fold_left (fun sum x => sum + g x) l a = a + sum_list (map g l).
Proof.
  induction l as [|x l IH]; intros a; simpl; [lia|]. rewrite IH. lia.
Qed.

Lemma totalToolCalls_sum (lg : WorkflowLogger.t) :
  totalToolCalls lg
  = sum_list (map (fun entry => SessionInfo.toolCallCount (snd entry))
                  (WorkflowLogger.activeSessions lg)).
Proof.
  unfold totalToolCalls, JsMap.values. rewrite fold_left_sum, map_map. reflexivity.
Qed.

Lemma sum_alter_same {A} (g : A -> nat) (f : A -> A) (l : list A) :
  (forall x, g (f x) = g x) ->
  forall i, sum_list (map g (alter f i l)) = sum_list (map g l).
Proof.
  intros Hf. induction l as [|x l IH]; intros i; [reflexivity|].
  destruct i as [|i]; simpl; [now rewrite Hf|].
  f_equal. apply IH.
Qed.

Lemma sum_alter_succ {A} (g : A -> nat) (f : A -> A) (l : list A) :
  (forall x, g (f x) = S (g x)) ->
  forall i, i < length l -> sum_list (map g (alter f i l)) = S (sum_list (map g l)).
Proof.
  intros Hf. induction l as [|x l IH]; intros i Hi; simpl in Hi; [lia|].
  destruct i as [|i]; simpl; [now rewrite Hf|].
  rewrite <- Nat.add_succ_r. f_equal. apply IH. lia.
Qed.

Lemma keys_alter {V} (f : string * V -> string * V) (l : list (string * V)) :
  (forall x, fst (f x) = fst x) ->
  forall i, JsMap.keys (alter f i l) = JsMap.keys l.
Proof.
  intros Hf. unfold JsMap.keys. induction l as [|x l IH]; intros i; [reflexivity|].
  destruct i as [|i]; simpl; [now rewrite Hf|].
  f_equal. apply IH.
Qed.

Lemma JsMap_set_fresh {V} (k : string) (v : V) m :
  ~ In k (JsMap.keys m) ->
  JsMap.set k v m = m ++ [(k, v)] /\
  findIndex (fun entry : string * V => String.eqb k (fst entry)) (m ++ [(k, v)])
  = Some (length m).
Proof.
  unfold JsMap.keys. induction m as [|[k' v'] m IH]; simpl; intros Hn.
  - rewrite String.eqb_refl. auto.
  - destruct (String.eqb k k') eqn:E.
    + apply String.eqb_eq in E. subst k'. exfalso. apply Hn. now left.
    + destruct IH as [-> ->]; [intros H; apply Hn; now right|]. auto.
Qed.

Lemma keys_filter_In {V} (f : string * V -> bool) (m : list (string * V)) (k : string) :
  In k (JsMap.keys (List.filter f m)) -> In k (JsMap.keys m).
Proof.
  unfold JsMap.keys. rewrite !in_map_iff. intros ([k' v] & <- & Hin).
  apply filter_In in Hin. destruct Hin. eauto.
Qed.

Lemma sum_filter_le {A} (g : A -> nat) (f : A -> bool) (l : list A) :
  sum_list (map g (List.filter f l)) <= sum_list (map g l).
Proof.
  induction l as [|x l IH]; simpl; [lia|]. destruct (f x); simpl; lia.
Qed.

(** What one step does to the number of counted calls and to the keys. *)
Lemma loggerStep_counts (lg : WorkflowLogger.t) (c : LoggerCall) :
  WorkflowLogger.enabled lg = true ->
  (forall newId, logged c = Some newId ->
                 ~ In newId (JsMap.keys (WorkflowLogger.activeSessions lg))) ->
  WorkflowLogger.enabled (loggerStep lg c) = true /\
  (forall k, In k (JsMap.keys (WorkflowLogger.activeSessions (loggerStep lg c))) ->
             In k (JsMap.keys (WorkflowLogger.activeSessions lg)) \/ logged c = Some k) /\
  match logged c with
  | Some _ => totalToolCalls (loggerStep lg c) = S (totalToolCalls lg)
  | None => totalToolCalls (loggerStep lg c) <= totalToolCalls lg
  end.
Proof.
  intros Hen Hfresh. rewrite !totalToolCalls_sum.
  destruct c as [now newId contextHint | now]; simpl.
  - unfold logToolCall, getOrCreateSession. rewrite Hen. simpl.
    destruct (findIndex (withinWindow (timeoutMs lg) now) (WorkflowLogger.activeSessions lg))
      as [i|] eqn:E; simpl.
    + split; [exact Hen|]. split.
      * intros k. rewrite !keys_alter by (intros [? ?]; reflexivity). auto.
      * rewrite sum_alter_succ; [|intros [? ?]; reflexivity|].
        -- now rewrite sum_alter_same by (intros [? ?]; reflexivity).
        -- rewrite length_alter. eapply findIndex_Some_lt, E.
    + destruct (JsMap_set_fresh newId (SessionInfo.mk newId now now 0 contextHint)
                  (WorkflowLogger.activeSessions lg) (Hfresh newId eq_refl)) as [Hset Hidx].
      rewrite Hset, Hidx. simpl. split; [exact Hen|]. split.
      * intros k. rewrite keys_alter by (intros [? ?]; reflexivity).
        unfold JsMap.keys. rewrite map_app, in_app_iff. simpl.
        intros [H|[<-|[]]]; auto.
      * rewrite sum_alter_succ; [|intros [? ?]; reflexivity|].
        -- rewrite map_app, sum_list_with_app. simpl. lia.
        -- rewrite length_app. simpl. lia.
  - unfold cleanupTick. rewrite Hen. simpl. split; [exact Hen|]. split.
    + intros k Hin. left. eapply keys_filter_In, Hin.
    + apply sum_filter_le.
Qed.

Lemma runLogger_counts (calls : list LoggerCall) :
  forall lg,
    WorkflowLogger.enabled lg = true ->
    NoDup (omap logged calls) ->
    (forall newId, In newId (omap logged calls) ->
                   ~ In newId (JsMap.keys (WorkflowLogger.activeSessions lg))) ->
    totalToolCalls (runLogger calls lg) <= totalToolCalls lg + length (omap logged calls) /\
    ((forall c, In c calls -> logged c <> None) ->
     totalToolCalls (runLogger calls lg) = totalToolCalls lg + length calls).
Proof.
  induction calls as [|c calls IH]; intros lg Hen Hnd Hfresh; [simpl; split; intros; lia|].
  assert (Hstep := loggerStep_counts lg c Hen).
  destruct Hstep as (Hen' & Hkeys & Hcount).
  { intros newId Hl. apply Hfresh. simpl. rewrite Hl. now left. }
  assert (Hnd' : NoDup (omap logged calls)).
  { simpl in Hnd. destruct (logged c); [now apply NoDup_cons in Hnd as [_ Hnd]|exact Hnd]. }
  destruct (IH (loggerStep lg c) Hen' Hnd') as [Hle Heq].
  { intros newId Hin Hk. destruct (Hkeys newId Hk) as [Hold|Hnew].
    - apply (Hfresh newId); [|exact Hold]. simpl. destruct (logged c); [now right|exact Hin].
    - simpl in Hnd. rewrite Hnew in Hnd. apply NoDup_cons in Hnd as [Hnot _].
      apply Hnot, list_elem_of_In, Hin. }
  change (runLogger (c :: calls) lg) with (runLogger calls (loggerStep lg c)).
  assert (Hlen : length (omap logged (c :: calls))
                 = (match logged c with Some _ => 1 | None => 0 end) + length (omap logged calls)).
  { simpl. destruct (logged c); reflexivity. }
  split.
  - rewrite Hlen. destruct (logged c); lia.
  - intros Hall. rewrite Heq by (intros c' Hc'; apply Hall; now right).
    cbn [length].
    destruct (logged c) eqn:El; [lia|].
    exfalso. apply (Hall c); [now left | exact El].
Qed.

(** X16.  On an enabled logger whose session ids never repeat, the
    sessions' counters add up to at most the number of tool calls
    logged, and to exactly that number as long as no clean-up has run.
    (When [generateSessionId] repeats an id, the earlier session is
    replaced in the map, and its count is lost.) *)
Theorem tool_calls_are_counted (sessionTimeoutMinutes : option Z) (calls : list LoggerCall) :
  NoDup (omap logged calls) ->
  totalToolCalls (runLogger calls (newWorkflowLogger sessionTimeoutMinutes (Some true)))
    <= length (omap logged calls) /\
  ((forall c, In c calls -> logged c <> None) ->
   totalToolCalls (runLogger calls (newWorkflowLogger sessionTimeoutMinutes (Some true)))
   = length calls).
Proof.
  intros Hnd.
  destruct (runLogger_counts calls (newWorkflowLogger sessionTimeoutMinutes (Some true))
              eq_refl Hnd) as [Hle Heq].
  - intros newId _ [].
  - split; [exact Hle | exact Heq].
Qed.

Lemma tool_calls_are_counted_witness :
  totalToolCalls
    (runLogger [LogToolCall 0 "s1" None; LogToolCall 5 "s2" None;
                LogToolCall 700000 "s3" None]
               (newWorkflowLogger None (Some true))) = 3.
Proof.
  destruct (tool_calls_are_counted None
              [LogToolCall 0 "s1" None; LogToolCall 5 "s2" None;
               LogToolCall 700000 "s3" None]) as [_ H].
  - repeat constructor; rewrite ?list_elem_of_In; simpl; intuition discriminate.
  - apply H. intros c [<-|[<-|[<-|[]]]]; discriminate.
Defined.

(** * Firing and the list of enabled transitions *)

Lemma hintFor_listed (w : World.t) (transition : Transition.t) (binding : Binding) :
  In transition (JsMap.values (Net.transitions (World.net w))) ->
  In binding (findValidBindings w (getInputArcs w (Transition.id transition))) ->
  guardAccepts transition binding = true ->
  In (hintFor transition binding) (getEnabledTransitions w).
Proof.
  intros Ht Hb Hg. unfold getEnabledTransitions.
  rewrite Array_sort_In, in_flat_map. exists transition. split; [exact Ht|].
  unfold hintsOf. apply in_map, list_elem_of_In, list_elem_of_filter.
  split; [exact Hg | now apply list_elem_of_In].
Qed.

(** X17.  A transition that fires without a supplied binding was listed:
    in a state whose tables are keyed by ids, whenever [fireTransition]
    finds the transition and does not end in
    [TransitionNotEnabledError], [getEnabledTransitions] of the state
    before the call holds a hint for this transition. *)
Theorem fired_transitions_were_listed (w : World.t) (transitionId : string)
    (transition : Transition.t) :
  wellFormed w ->
  JsMap.get transitionId (Net.transitions (World.net w)) = Some transition ->
  (forall message name hints,
      fst (fireTransition transitionId None w)
      <> Throw (TransitionNotEnabledError message name hints)) ->
  exists hint,
    In hint (getEnabledTransitions w) /\
    SemanticHint.transitionId hint = transitionId /\
    SemanticHint.transitionName hint = Transition.name transition.
Proof.
  intros Hw Ht Hfire.
  assert (Hid : Transition.id transition = transitionId).
  { destruct Hw as (_ & _ & Hk & _). apply Hk. now apply JsMap_get_In. }
  pose proof (fire_not_enabled_iff w transitionId transition Ht) as Hiff.
  destruct (findValidBindings w (getInputArcs w transitionId)) as [|first others] eqn:Hb.
  - exfalso. destruct (proj2 Hiff I) as (m & n & h & E). exact (Hfire m n h E).
  - destruct (guardAccepts transition first) eqn:Hg.
    + exists (hintFor transition first). split; [|split; [exact Hid | reflexivity]].
      apply hintFor_listed; [eapply JsMap_get_In_values; exact Ht | | exact Hg].
      rewrite Hid, Hb. now left.
    + exfalso. destruct (proj2 Hiff (or_introl eq_refl)) as (m & n & h & E).
      exact (Hfire m n h E).
Qed.

Lemma fired_transitions_were_listed_witness :
  exists hint,
    In hint (getEnabledTransitions Examples.fileNet) /\
    SemanticHint.transitionId hint = "search_files" /\
    SemanticHint.transitionName hint = "search:files".
Proof.
  apply (fired_transitions_were_listed Examples.fileNet "search_files"
           (Examples.transition "search_files" "search:files")).
  - apply wellFormed_run, wellFormed_newNet.
  - reflexivity.
  - intros message name hints. vm_compute. discriminate.
Defined.

(** * The plain errors of a firing *)

Lemma errorsWithin_ret {A} w0 P (a : A) : errorsWithin w0 P (ret a).
Proof. intros w msg _. discriminate. Qed.

Lemma errorsWithin_bind {A B} w0 P (m : M A) (k : A -> M B) :
  structural m -> errorsWithin w0 P m -> (forall a, errorsWithin w0 P (k a)) ->
  errorsWithin w0 P (bind m k).
Proof.
  intros Hs Hm Hk w msg Hw. unfold bind.
  specialize (Hs w). specialize (Hm w msg Hw).
  destruct (m w) as [[a|e] w1]; simpl in *.
  - apply (Hk a). eapply sameStructure_trans; eassumption.
  - intros [= ->]. now apply Hm.
Qed.

Lemma errorsWithin_repeatM w0 P n (body : M unit) :
  structural body -> errorsWithin w0 P body -> errorsWithin w0 P (repeatM n body).
Proof.
  intros Hs Hb. induction n; simpl;
    [apply errorsWithin_ret | apply errorsWithin_bind; auto].
Qed.

Lemma errorsWithin_forM {A} w0 P (xs : list A) (body : A -> M unit) :
  (forall x, structural (body x)) ->
  (forall x, In x xs -> errorsWithin w0 P (body x)) ->
  errorsWithin w0 P (forM xs body).
Proof.
  intros Hs. induction xs as [|x xs IH]; intros Hb; simpl;
    [apply errorsWithin_ret|].
  apply errorsWithin_bind; [apply Hs | apply Hb; now left|].
  intros _. apply IH. intros y Hy. apply Hb. now right.
Qed.

Lemma errorsWithin_onlyRemoves w0 P (m : M unit) : onlyRemoves m -> errorsWithin w0 P m.
Proof. intros Hm w msg _. destruct (Hm w) as (h' & -> & _). discriminate. Qed.

Lemma getPlace_None_sameStructure (w0 w : World.t) (placeId : string) :
  sameStructure w0 w -> getPlace w placeId = None -> getPlace w0 placeId = None.
Proof.
  intros (Hp & _ & _ & _ & Hh). unfold getPlace. rewrite Hp.
  destruct (JsMap.get placeId (Net.places (World.net w0))) as [l|]; [|reflexivity].
  destruct (World.heap w !! l) as [p|] eqn:E; [discriminate|]. intros _.
  apply lookup_ge_None in E. apply Forall2_length in Hh.
  destruct (World.heap w0 !! l) eqn:E0; [|reflexivity].
  apply lookup_lt_Some in E0. lia.
Qed.

Lemma errorsWithin_addToken w0 placeId color :
  errorsWithin w0
    (fun message => getPlace w0 placeId = None /\
                    message = ("Place " ++ placeId ++ " not found")%string)
    (addToken placeId color).
Proof.
  intros w msg Hw. unfold addToken.
  destruct (getPlace w placeId) as [[l place]|] eqn:E; simpl; [discriminate|].
  intros [= <-]. split; [|reflexivity].
  eapply getPlace_None_sameStructure; eassumption.
Qed.

Lemma errorsWithin_production w0 transitionId result :
  errorsWithin w0 (missingTarget w0 transitionId)
    (fun w => forM (getOutputArcs w transitionId) (produceArc result) w).
Proof.
  intros w msg Hw.
  assert (Harcs : getOutputArcs w transitionId = getOutputArcs w0 transitionId).
  { unfold getOutputArcs. destruct Hw as (_ & _ & -> & _). reflexivity. }
  rewrite Harcs. clear Harcs. revert w msg Hw.
  apply errorsWithin_forM.
  { intros arc. apply structural_repeatM, structural_bind;
      [apply structural_addToken | intros; apply structural_ret]. }
  intros arc Hin. unfold produceArc. apply errorsWithin_repeatM.
  { apply structural_bind; [apply structural_addToken | intros; apply structural_ret]. }
  apply errorsWithin_bind;
    [apply structural_addToken | | intros; apply errorsWithin_ret].
  intros w msg Hw He.
  destruct (errorsWithin_addToken w0 (Arc.target arc) (tokenColor result arc) w msg Hw He)
    as [Hnone ->].
  exists arc. auto.
Qed.

(** A plain [Error] of the three statements after the guard check is
    the handler's own, or the one of [addToken] for an output arc that
    leads to no place. *)
Lemma commit_error transitionId transition inputArcs binding (w : World.t)
    (message : string) :
  fst (commit transitionId transition inputArcs binding w) = Throw (Error message) ->
  (exists handler,
      Transition.handler transition = Some handler /\
      handler binding = Rejected (Error message)) \/
  (exists result,
      fst (runHandler transition binding w) = Return result /\
      missingTarget w transitionId message).
Proof.
  unfold commit, bind.
  pose proof (structural_onlyRemoves _
                (onlyRemoves_forM inputArcs consumeArc onlyRemoves_consumeArc) w) as Hs.
  destruct (onlyRemoves_forM inputArcs consumeArc onlyRemoves_consumeArc w)
    as (h' & E & _).
  rewrite E in Hs. rewrite E. simpl in Hs.
  unfold runHandler.
  destruct (Transition.handler transition) as [handler|].
  - destruct (handler binding) as [result|thrown] eqn:Hr.
    + unfold ret. intros H. right. exists result. split; [reflexivity|].
      pose proof (errorsWithin_production w transitionId result (setHeap h' w) message Hs)
        as Hp.
      cbv beta in Hp.
      destruct (forM _ _ (setHeap h' w)) as [[[]|e] w1]; simpl in *;
        [discriminate | injection H as ->; now apply Hp].
    + unfold throw. simpl. intros [= ->]. left. eauto.
  - unfold ret. intros H. right. exists (VObject binding). split; [reflexivity|].
    pose proof (errorsWithin_production w transitionId (VObject binding)
                  (setHeap h' w) message Hs) as Hp.
    cbv beta in Hp.
    destruct (forM _ _ (setHeap h' w)) as [[[]|e] w1]; simpl in *;
      [discriminate | injection H as ->; now apply Hp].
Qed.

(** X18.  Where a plain [Error] of [fireTransition] comes from.  Either
    the transition is unknown, and then nothing has changed; or the
    guard had accepted the first candidate and the error is the one the
    transition's own handler threw, after the input tokens were removed;
    or the handler had resolved and an output arc of the transition
    leads to no place: then the error is the one of [addToken] for that
    arc's target. *)
Theorem fire_error_origin (w : World.t) (transitionId : string)
    (selectedBinding : option Binding) (message : string) :
  fst (fireTransition transitionId selectedBinding w) = Throw (Error message) ->
  (JsMap.get transitionId (Net.transitions (World.net w)) = None /\
   message = ("Transition " ++ transitionId ++ " not found")%string /\
   snd (fireTransition transitionId selectedBinding w) = w) \/
  (exists transition first others,
      JsMap.get transitionId (Net.transitions (World.net w)) = Some transition /\
      candidateBindings w (getInputArcs w transitionId) selectedBinding
        = first :: others /\
      guardAccepts transition first = true /\
      ((exists handler,
           Transition.handler transition = Some handler /\
           handler first = Rejected (Error message) /\
           snd (fireTransition transitionId selectedBinding w)
             = snd (forM (getInputArcs w transitionId) consumeArc w)) \/
       (exists result,
           fst (runHandler transition first w) = Return result /\
           missingTarget w transitionId message))).
Proof.
  unfold fireTransition.
  destruct (JsMap.get transitionId (Net.transitions (World.net w))) as [transition|].
  - intros H. right. cbv zeta in *.
    destruct (candidateBindings w (getInputArcs w transitionId) selectedBinding)
      as [|binding others]; [discriminate|].
    destruct (guardAccepts transition binding) eqn:Hg; cbn [negb] in *; [|discriminate].
    exists transition, binding, others. repeat split; auto.
    destruct (commit_error _ _ _ _ _ _ H) as [(handler & Hh & Hr)|Hm].
    + left. exists handler. repeat split; auto.
      now rewrite (commit_handler_rejects _ _ _ _ handler _ w Hh Hr).
    + right. exact Hm.
  - simpl. intros [= <-]. left. auto.
Qed.

Lemma fire_error_origin_witness :
  missingTarget danglingOutputNet "t" "Place ghost not found".
Proof.
  destruct (fire_error_origin danglingOutputNet "t" None
              "Place ghost not found" eq_refl)
    as [(H & _)|(transition & first & others & Ht & _ & _ &
                 [(handler & Hh & _)|(result & _ & H)])].
  - discriminate H.
  - exfalso. vm_compute in Ht. injection Ht as <-. discriminate Hh.
  - exact H.
Defined.
